(** * A shallow embedding of cpp-iterators (src/iterator/iterators.h and
      src/iterator/iterator_utilities.h).

    The library has two layers, and so does this development:
    - [Traits]: the compile-time metafunctions ([has_rbegin],
      [is_const_type], [is_const_collection], the [value_type] and
      [iterator] typedefs and the SFINAE dispatch of the free functions
      [Enumerate], [Iterate], [Chain], ...) as functions over a small
      syntax of C++ types;
    - [Cursors]: the run-time behaviour of the iterator classes
      ([JoinedIterator], [FilterIterator], [ChainedIterator],
      [EnumeratedIterator], ...) over abstract source iterators. *)

From Stdlib Require Import Bool List ZArith Lia.
Import ListNotations.

(* ------------------------------------------------------------------ *)
(** ** Compile-time layer *)

Module Traits.

(** Standard containers a view can wrap. *)
Inductive std_kind :=
| StdVector | StdList | StdDeque | StdForwardList | StdSet | StdUnorderedSet.

(** The view class templates of iterators.h. *)
Inductive view_class :=
| VEnumerated | VForwardEnumerated
| VIterated | VForwardIterated
| VChained | VForwardChained
| VReferenced | VForwardReferenced
| VReferencedUnique | VForwardReferencedUnique
| VReversed
| VMapped | VForwardMapped
| VFiltered | VForwardFiltered.

Inductive join_class := JJoined | JForwardJoined.

(** C++ types, as far as the traits look at them.  [TView c T F] is the
    class [c<T, F>] ([F] is the result type of the function argument of
    [Mapped] / [Filtered], [TVoid] for the one-parameter classes);
    [TJoin c T1 T2] is [Joined<T1, T2>] or [ForwardJoined<T1, T2>]. *)
Inductive cty :=
| TVoid | TBool | TInt | TChar
| TConst (t : cty)          (* const T *)
| TRef (t : cty)            (* T& *)
| TRRef (t : cty)           (* T&& *)
| TPtr (t : cty)            (* T* *)
| TUniquePtr (t : cty)      (* std::unique_ptr<T> *)
| TStd (k : std_kind) (e : cty)
| TItem (t : cty)           (* Item<T> *)
| TView (c : view_class) (t : cty) (f : cty)
| TJoin (c : join_class) (t1 t2 : cty).

Scheme Equality for std_kind.
Scheme Equality for view_class.
Scheme Equality for join_class.
Scheme Equality for cty.

Definition remove_reference (t : cty) : cty :=
  match t with TRef u | TRRef u => u | _ => t end.

Definition remove_cv (t : cty) : cty :=
  match t with TConst u => u | _ => t end.

Definition remove_cvref (t : cty) : cty := remove_cv (remove_reference t).

(** [details::is_const_type]: the primary template and its seven partial
    specialisations ([const T], [const T&], [const T*], [T* const],
    [const T*&], [const T&&], [const T*&&]). *)
Definition is_const_type (t : cty) : bool :=
  match t with
  | TConst _ => true
  | TRef (TConst _) => true
  | TPtr (TConst _) => true
  | TRef (TPtr (TConst _)) => true
  | TRRef (TConst _) => true
  | TRRef (TPtr (TConst _)) => true
  | _ => false
  end.

(** [details::is_any_const]. *)
Definition is_any_const (t1 t2 : cty) : bool := is_const_type t1 || is_const_type t2.

(** Which standard containers have a member [rbegin]. *)
Definition std_has_rbegin (k : std_kind) : bool :=
  match k with
  | StdVector | StdList | StdDeque | StdSet => true
  | StdForwardList | StdUnorderedSet => false
  end.

(** Whether dereferencing the container's non-const [iterator] yields a
    const element (the element of a set is immutable). *)
Definition std_iterator_is_const (k : std_kind) : bool :=
  match k with
  | StdSet | StdUnorderedSet => true
  | _ => false
  end.

(** Which view classes declare [rbegin]: the [Forward*] classes do not,
    their bidirectional subclasses add it. *)
Definition view_has_rbegin (c : view_class) : bool :=
  match c with
  | VEnumerated | VIterated | VChained | VReferenced | VReferencedUnique
  | VReversed | VMapped | VFiltered => true
  | VForwardEnumerated | VForwardIterated | VForwardChained
  | VForwardReferenced | VForwardReferencedUnique | VForwardMapped
  | VForwardFiltered => false
  end.

Definition join_has_rbegin (c : join_class) : bool :=
  match c with JJoined => true | JForwardJoined => false end.

(** Does the class type [x] have a member [rbegin] callable on a
    non-const object? *)
Definition member_rbegin (x : cty) : bool :=
  match x with
  | TStd k _ => std_has_rbegin k
  | TView c _ _ => view_has_rbegin c
  | TJoin c _ _ => join_has_rbegin c
  | _ => false
  end.

(** [details::has_rbegin<T>]: the SFINAE test on
    [std::declval<remove_cvref_t<C>>().rbegin()]. *)
Definition has_rbegin (t : cty) : bool := member_rbegin (remove_cvref t).

(** [details::is_bidirectional_collection]. *)
Definition is_bidirectional_collection (t : cty) : bool := has_rbegin t.

(** [details::are_bidirectional_collections] ([conjunction]). *)
Definition are_bidirectional_collections (t1 t2 : cty) : bool :=
  is_bidirectional_collection t1 && is_bidirectional_collection t2.

(** Template instantiation is bounded by the compiler's recursion depth
    (-ftemplate-depth, 900 by default); the nested typedef lookups below
    count it down. *)
Definition template_depth : nat := 900.

(** [remove_cvref_t<T>::value_type]; [None] when the typedef does not
    exist.  For the views it is the [value_type] member of the class. *)
Fixpoint value_type_d (d : nat) (t : cty) : option cty :=
  match d with
  | O => None
  | S d' =>
    match t with
    | TConst u | TRef u | TRRef u => value_type_d d' u
    | TStd _ e => Some e
    | TView c u f =>
      match c with
      | VEnumerated | VForwardEnumerated => option_map TItem (value_type_d d' u)
      | VIterated | VForwardIterated | VReversed | VFiltered | VForwardFiltered =>
        value_type_d d' u
      | VChained | VForwardChained =>
        match value_type_d d' u with
        | Some inner => value_type_d d' inner
        | None => None
        end
      | VReferenced | VForwardReferenced =>
        (* remove_pointer_t<value_type> *)
        match value_type_d d' u with
        | Some (TPtr v) => Some v
        | r => r
        end
      | VReferencedUnique | VForwardReferencedUnique =>
        (* value_type::element_type *)
        match value_type_d d' u with
        | Some (TUniquePtr v) => Some v
        | _ => None
        end
      | VMapped | VForwardMapped => Some f   (* result_of<Function(value_type&)> *)
      end
    | TJoin _ u1 _ => value_type_d d' u1
    | _ => None
    end
  end.

Definition value_type (t : cty) : option cty := value_type_d template_depth t.

(** [auto&] deduced from a dereference: only an lvalue binds. *)
Definition as_lvalue (r : option cty) : option cty :=
  match r with Some (TRef w) => Some (TRef w) | _ => None end.

(** [_return_value& operator*()] of [ReferencedIterator] /
    [ReferencedUniqueIterator], with [_return_value] the pointee [v] (made
    const for a const iterator): there is no reference to [void], so the
    declaration is ill-formed when the pointee is (cv-)[void]. *)
Definition referenced_return (ro : bool) (v : cty) : option cty :=
  match remove_cv v with
  | TVoid => None
  | _ => Some (TRef (if ro then TConst v else v))
  end.

(** The type of [*it] where [it] is [remove_cvref_t<T>::iterator]
    ([c = false]) or [remove_cvref_t<T>::const_iterator] ([c = true]).
    Each view picks its [iterator] typedef with the [conditional_t] of
    its class. *)
Fixpoint iter_deref_d (d : nat) (t : cty) (c : bool) : option cty :=
  match d with
  | O => None
  | S d' =>
    match t with
    | TConst u | TRef u | TRRef u => iter_deref_d d' u c
    | TStd k e =>
      Some (TRef (if c || std_iterator_is_const k then TConst e else e))
    | TView cl u f =>
      (* [iterator] is [const_iterator] when [is_const_type<T>] *)
      let ro := c || is_const_type u in
      match cl with
      | VIterated | VForwardIterated | VReversed => iter_deref_d d' u ro
      | VEnumerated | VForwardEnumerated =>
        (* [iterator] is [const_iterator] when [is_const_collection<T>];
           [operator*] returns [_return_type&] *)
        match value_type_d d' u, iter_deref_d d' u false with
        | Some e, Some dr =>
          let cc := is_const_type u || is_const_type dr in
          Some (TRef (if c || cc then TConst (TItem e) else TItem e))
        | _, _ => None
        end
      | VReferenced | VForwardReferenced =>
        (* [_return_value& operator*() const { return **begin_; }] *)
        match value_type_d d' u with
        | Some (TPtr v) => referenced_return ro v
        | _ => None
        end
      | VReferencedUnique | VForwardReferencedUnique =>
        match value_type_d d' u with
        | Some (TUniquePtr v) => referenced_return ro v
        | _ => None
        end
      | VMapped | VForwardMapped =>
        (* [auto operator*() const]: the decayed result *)
        Some (remove_cvref f)
      | VFiltered | VForwardFiltered =>
        (* [auto& operator*() const { return *begin_; }] *)
        as_lvalue (iter_deref_d d' u ro)
      | VChained | VForwardChained =>
        (* [auto& operator*() const { return *inner_begin_; }] *)
        match value_type_d d' u with
        | Some inner => as_lvalue (iter_deref_d d' inner ro)
        | None => None
        end
      end
    | TJoin _ u1 u2 =>
      let ro := c || is_any_const u1 u2 in
      (* [auto&] with two return statements: both must deduce alike *)
      match as_lvalue (iter_deref_d d' u1 ro), as_lvalue (iter_deref_d d' u2 ro) with
      | Some w1, Some w2 => if cty_beq w1 w2 then Some w1 else None
      | _, _ => None
      end
    | _ => None
    end
  end.

Definition iter_deref (t : cty) (c : bool) : option cty := iter_deref_d template_depth t c.

(** [details::is_const_collection<T>]: [is_const_type<T>] or the
    non-const iterator of [remove_cvref_t<T>] yields a const value. *)
Definition is_const_collection (t : cty) : option bool :=
  match iter_deref t false with
  | Some dr => Some (is_const_type t || is_const_type dr)
  | None => None
  end.

Definition is_unique_pointer (t : cty) : bool :=
  match remove_cv t with TUniquePtr _ => true | _ => false end.

(** *** The free functions: overload selection by [enable_if_t]. *)

Definition Enumerate (t : cty) : cty :=
  TView (if is_bidirectional_collection t then VEnumerated else VForwardEnumerated) t TVoid.

Definition Iterate (t : cty) : cty :=
  TView (if is_bidirectional_collection t then VIterated else VForwardIterated) t TVoid.

(** [is_nested_bidirectional_collection] needs [remove_cvref_t<T>::value_type];
    without it neither overload is viable. *)
Definition Chain (t : cty) : option cty :=
  match value_type t with
  | Some inner =>
    Some (TView (if are_bidirectional_collections t inner then VChained else VForwardChained)
                t TVoid)
  | None => None
  end.

Definition AsReferences (t : cty) : option cty :=
  match value_type t with
  | Some e =>
    Some (TView (if is_unique_pointer e
                 then if is_bidirectional_collection t then VReferencedUnique
                      else VForwardReferencedUnique
                 else if is_bidirectional_collection t then VReferenced
                      else VForwardReferenced) t TVoid)
  | None => None
  end.

(** [static_assert(is_bidirectional_collection<T>::value, ...)]. *)
Definition Reverse (t : cty) : option cty :=
  if is_bidirectional_collection t then Some (TView VReversed t TVoid) else None.

(** The [static_assert] on equal [value_type] in [ForwardJoined]. *)
Definition Join (t1 t2 : cty) : option cty :=
  match value_type t1, value_type t2 with
  | Some e1, Some e2 =>
    if cty_beq e1 e2
    then Some (TJoin (if are_bidirectional_collections t1 t2 then JJoined else JForwardJoined)
                     t1 t2)
    else None
  | _, _ => None
  end.

Definition Map (t f : cty) : cty :=
  TView (if is_bidirectional_collection t then VMapped else VForwardMapped) t f.

Definition Filter (t : cty) : cty :=
  TView (if is_bidirectional_collection t then VFiltered else VForwardFiltered) t TBool.

(** *** Mutability classification of a view.

    [iterator_is_const_iterator v]: does the [conditional_t] that defines
    the view's [iterator] typedef pick its [const_iterator]? *)
Definition iterator_is_const_iterator (v : cty) : option bool :=
  match v with
  | TView c u _ =>
    match c with
    | VEnumerated | VForwardEnumerated => is_const_collection u
    | _ => Some (is_const_type u)
    end
  | TJoin _ u1 u2 => Some (is_any_const u1 u2)
  | _ => None
  end.

(** Whether an element reached through a dereference of type [r] cannot
    be assigned: a reference to const, or a computed value. *)
Definition read_only_access (r : cty) : bool :=
  match r with
  | TRef (TConst _) => true
  | TRef _ => false
  | _ => true
  end.

(** *** What [operator*] of a [Map] cursor returns.  [f] is the result
    type of the mapping function, [cursor_const] says whether the cursor
    object itself is const-qualified. *)
Inductive referent := RTemporary | RFunctionResult.

Inductive deref_result :=
| ByValue (t : cty)
| ByRef (t : cty) (r : referent).

(** iterators.h, [MappedIterator]: the single [auto operator*() const]
    serves both cursors. *)
Definition MappedIterator_deref (cursor_const : bool) (f : cty) : deref_result :=
  ByValue (remove_cvref f).

(** iterator_utilities.h, [Mapped::_Iterator]: [auto operator*()] and
    [const auto& operator*() const], both [return mapping_function_( *begin_);].
    A prvalue result binds the [const auto&] to a temporary. *)
Definition Mapped_Iterator_deref_util (cursor_const : bool) (f : cty) : deref_result :=
  if cursor_const
  then match f with
       | TRef u => ByRef (TConst (remove_cv u)) RFunctionResult
       | _ => ByRef (TConst (remove_cv f)) RTemporary
       end
  else ByValue (remove_cvref f).

(** A binding [T&] or [const T&] of a collection type [T]. *)
Definition binding (b : bool) (t : cty) : cty := TRef (if b then TConst t else t).

End Traits.

(* ------------------------------------------------------------------ *)
(** ** Run-time layer: cursors *)

Module Cursors.

(** A collection type [C] with elements [A], seen through one of its
    iterator types: [begin()], [end()], [operator++], [operator*] and
    [operator==]. *)
Record iface (C A : Type) := mk_iface {
  Iter : Type;
  begin_ : C -> Iter;
  end_ : C -> Iter;
  incr : Iter -> Iter;
  deref : Iter -> A;
  eqb : Iter -> Iter -> bool
}.

Arguments mk_iface {C A} Iter begin_ end_ incr deref eqb.
Arguments Iter {C A} _.
Arguments begin_ {C A} _ _.
Arguments end_ {C A} _ _.
Arguments incr {C A} _ _.
Arguments deref {C A} _ _.
Arguments eqb {C A} _ _ _.

(** Iterator equality is reflexive. *)
Definition iface_refl {C A} (X : iface C A) : Prop := forall i, eqb X i i = true.

(** A collection that also has [rbegin()] / [rend()]. *)
Record bidi (C A : Type) := mk_bidi { fwd : iface C A; bwd : iface C A }.

Arguments mk_bidi {C A} fwd bwd.
Arguments fwd {C A} _.
Arguments bwd {C A} _.

(** The range-for loop [for (auto it = b; it != e; ++it) out.push_back( *it);]. *)
Inductive yields_from {C A} (X : iface C A) (e : Iter X) : Iter X -> list A -> Prop :=
| yields_stop : forall i, eqb X i e = true -> yields_from X e i []
| yields_step : forall i l,
    eqb X i e = false -> yields_from X e (incr X i) l -> yields_from X e i (deref X i :: l).

Definition yields {C A} (X : iface C A) (c : C) (l : list A) : Prop :=
  yields_from X (end_ X c) (begin_ X c) l.

(** The same loop run for at most [n] iterations. *)
Fixpoint walk {C A} (X : iface C A) (e : Iter X) (n : nat) (i : Iter X) : option (list A) :=
  if eqb X i e then Some []
  else match n with
       | O => None
       | S n' => option_map (cons (deref X i)) (walk X e n' (incr X i))
       end.

(** *** [std::vector]: iterators are indices into the storage.  The
    iterator carries the storage so that [operator*] can read it. *)
Section Vector.
Context {A : Type} (dflt : A).

Definition vector_fwd : iface (list A) A :=
  mk_iface (nat * list A)
    (fun s => (0, s)) (fun s => (length s, s))
    (fun '(i, s) => (S i, s))
    (fun '(i, s) => nth i s dflt)
    (fun '(i, _) '(j, _) => Nat.eqb i j).

(** [std::reverse_iterator]: holds the base position [b], reads [*(b-1)],
    [++] decrements the base. *)
Definition vector_bwd : iface (list A) A :=
  mk_iface (nat * list A)
    (fun s => (length s, s)) (fun s => (0, s))
    (fun '(b, s) => (pred b, s))
    (fun '(b, s) => nth (pred b) s dflt)
    (fun '(i, _) '(j, _) => Nat.eqb i j).

Definition vector : bidi (list A) A := mk_bidi vector_fwd vector_bwd.

(** [&*it]: the address of the element an iterator designates. *)
Definition vector_fwd_addr (it : nat * list A) : nat := fst it.
Definition vector_bwd_addr (it : nat * list A) : nat := pred (fst it).

End Vector.

(** *** [Reversed]: [begin()] is the source's [rbegin()] and [rbegin()]
    is the source's [begin()]. *)
Definition Reversed {C A} (X : bidi C A) : bidi C A := mk_bidi (bwd X) (fwd X).

(** *** [JoinedIterator<_FirstIterator, _SecondIterator>]: the fields
    [first_], [first_end_], [second_], [second_end_]; the view builds it
    from its two held collections, reached through [p1] / [p2]. *)
Definition JoinedIterator {C C1 C2 A} (X : iface C1 A) (Y : iface C2 A)
    (p1 : C -> C1) (p2 : C -> C2) : iface C A :=
  mk_iface (Iter X * Iter X * Iter Y * Iter Y)
    (fun c => (begin_ X (p1 c), end_ X (p1 c), begin_ Y (p2 c), end_ Y (p2 c)))
    (fun c => (end_ X (p1 c), end_ X (p1 c), end_ Y (p2 c), end_ Y (p2 c)))
    (fun '(f, fe, s, se) =>
       if negb (eqb X f fe) then (incr X f, fe, s, se) else (f, fe, incr Y s, se))
    (fun '(f, fe, s, _) => if negb (eqb X f fe) then deref X f else deref Y s)
    (fun '(f, _, s, _) '(f', _, s', _) => eqb X f f' && eqb Y s s').

(** [ForwardJoined<T1, T2>]: holds [first_] and [second_]. *)
Definition ForwardJoined {C1 C2 A} (X : iface C1 A) (Y : iface C2 A) : iface (C1 * C2) A :=
  JoinedIterator X Y fst snd.

(** [Joined<T1, T2>]: [rbegin()] walks [second_] backwards, then [first_]. *)
Definition Joined {C1 C2 A} (X : bidi C1 A) (Y : bidi C2 A) : bidi (C1 * C2) A :=
  mk_bidi (JoinedIterator (fwd X) (fwd Y) fst snd)
          (JoinedIterator (bwd Y) (bwd X) snd fst).

(** *** [MappedIterator]: [operator*] applies the mapping function. *)
Definition MappedIterator {C A B} (X : iface C A) (f : A -> B) : iface C B :=
  mk_iface (Iter X) (begin_ X) (end_ X) (incr X) (fun i => f (deref X i)) (eqb X).

(** *** [FilterIterator<_iterable, _function>]: fields [begin_] and
    [end_]; the constructor and [operator++] run [SkipFilteredEntries]. *)
Section Filter.
Context {C A : Type} (X : iface C A) (filter : A -> bool).

Definition filter_state : Type := (Iter X * Iter X)%type.

(** [while (!IsEnd() && IsFiltered()) ++begin_;] from [i], ending at [j]. *)
Inductive SkipFilteredEntries (e : Iter X) : Iter X -> Iter X -> Prop :=
| skip_is_end : forall i, eqb X i e = true -> SkipFilteredEntries e i i
| skip_kept : forall i,
    eqb X i e = false -> filter (deref X i) = true -> SkipFilteredEntries e i i
| skip_filtered : forall i j,
    eqb X i e = false -> filter (deref X i) = false ->
    SkipFilteredEntries e (incr X i) j -> SkipFilteredEntries e i j.

(** [FilterIterator(begin, end, filter)]. *)
Definition FilterIterator_make (b e : Iter X) (s : filter_state) : Prop :=
  exists j, SkipFilteredEntries e b j /\ s = (j, e).

(** [operator++]: [++begin_; SkipFilteredEntries();]. *)
Definition FilterIterator_incr (s s' : filter_state) : Prop :=
  FilterIterator_make (incr X (fst s)) (snd s) s'.

Definition FilterIterator_deref (s : filter_state) : A := deref X (fst s).

Definition FilterIterator_eqb (s1 s2 : filter_state) : bool := eqb X (fst s1) (fst s2).

(** The range-for loop over [FilterIterator]s, against the end cursor [se]. *)
Inductive filter_loop (se : filter_state) : filter_state -> list A -> Prop :=
| filter_loop_stop : forall s, FilterIterator_eqb s se = true -> filter_loop se s []
| filter_loop_step : forall s s' l,
    FilterIterator_eqb s se = false -> FilterIterator_incr s s' ->
    filter_loop se s' l -> filter_loop se s (FilterIterator_deref s :: l).

(** [ForwardFiltered::begin()] / [end()] and a full traversal. *)
Definition Filtered_begin (c : C) (s : filter_state) : Prop :=
  FilterIterator_make (begin_ X c) (end_ X c) s.

Definition Filtered_end (c : C) (s : filter_state) : Prop :=
  FilterIterator_make (end_ X c) (end_ X c) s.

Definition Filtered_yields (c : C) (l : list A) : Prop :=
  exists sb se, Filtered_begin c sb /\ Filtered_end c se /\ filter_loop se sb l.

End Filter.

(** *** [ChainedIterator<_outer_iterator, _inner_iterator>]: fields
    [outer_begin_], [outer_end_], [inner_begin_], [inner_end_]; the inner
    iterators start value-initialised ([inner_init]). *)
Section Chain.
Context {CO CI A : Type} (O : iface CO CI) (N : iface CI A) (inner_init : Iter N).

Definition chain_state : Type := (Iter O * Iter O * Iter N * Iter N)%type.

Definition IsAtEnd (s : chain_state) : bool :=
  let '(ob, oe, _, _) := s in eqb O ob oe.

Definition IsAtEndOfInnerCollection (s : chain_state) : bool :=
  let '(_, _, ib, ie) := s in eqb N ib ie.

Definition InitializeInnerCollection (s : chain_state) : chain_state :=
  let '(ob, oe, ib, ie) := s in
  if negb (eqb O ob oe)
  then (ob, oe, begin_ N (deref O ob), end_ N (deref O ob))
  else (ob, oe, ib, ie).

Definition AdvanceOuterCollection (s : chain_state) : chain_state :=
  let '(ob, oe, ib, ie) := s in InitializeInnerCollection (incr O ob, oe, ib, ie).

(** [while (!IsAtEnd() && IsAtEndOfInnerCollection()) AdvanceOuterCollection();] *)
Inductive SkipEmptyInnerCollections : chain_state -> chain_state -> Prop :=
| skip_inner_done : forall s,
    negb (IsAtEnd s) && IsAtEndOfInnerCollection s = false ->
    SkipEmptyInnerCollections s s
| skip_inner_advance : forall s s',
    negb (IsAtEnd s) && IsAtEndOfInnerCollection s = true ->
    SkipEmptyInnerCollections (AdvanceOuterCollection s) s' ->
    SkipEmptyInnerCollections s s'.

(** The constructor: [InitializeInnerCollection(); SkipEmptyInnerCollections();]. *)
Definition ChainedIterator_make (ob oe : Iter O) (s : chain_state) : Prop :=
  SkipEmptyInnerCollections (InitializeInnerCollection (ob, oe, inner_init, inner_init)) s.

(** [operator++]: [++inner_begin_; SkipEmptyInnerCollections();]. *)
Definition ChainedIterator_incr (s s' : chain_state) : Prop :=
  let '(ob, oe, ib, ie) := s in SkipEmptyInnerCollections (ob, oe, incr N ib, ie) s'.

Definition ChainedIterator_deref (s : chain_state) : A :=
  let '(_, _, ib, _) := s in deref N ib.

(** [operator==]: [IsAtEnd() == other.IsAtEnd()]. *)
Definition ChainedIterator_eqb (s1 s2 : chain_state) : bool :=
  Bool.eqb (IsAtEnd s1) (IsAtEnd s2).

Inductive chain_loop (se : chain_state) : chain_state -> list A -> Prop :=
| chain_loop_stop : forall s, ChainedIterator_eqb s se = true -> chain_loop se s []
| chain_loop_step : forall s s' l,
    ChainedIterator_eqb s se = false -> ChainedIterator_incr s s' ->
    chain_loop se s' l -> chain_loop se s (ChainedIterator_deref s :: l).

(** [ForwardChained::begin()] / [end()] and a full traversal. *)
Definition Chained_begin (co : CO) (s : chain_state) : Prop :=
  ChainedIterator_make (begin_ O co) (end_ O co) s.

Definition Chained_end (co : CO) (s : chain_state) : Prop :=
  ChainedIterator_make (end_ O co) (end_ O co) s.

Definition Chained_yields (co : CO) (l : list A) : Prop :=
  exists sb se, Chained_begin co sb /\ Chained_end co se /\ chain_loop se sb l.

End Chain.

(** *** [int] arithmetic (32 bits, two's complement).  [int_of_size] is
    [static_cast<int>] of a [std::size_t]. *)
Definition int_wrap (z : Z) : Z := (z + 2 ^ 31) mod 2 ^ 32 - 2 ^ 31.
Definition int_of_size (n : nat) : Z := int_wrap (Z.of_nat n).
Definition int_add (a b : Z) : Z := int_wrap (a + b).
Definition INT_MAX : Z := 2 ^ 31 - 1.

(** [Item<T>]: [int position_; T* value_;] ([None] is [nullptr]); the
    pointer is an address in the storage of the enumerated collection. *)
Record Item := mkItem { position : Z; value : option nat }.

(** *** [EnumeratedIterator]: fields [begin_], [end_], [position_],
    [position_delta_], [item_]; [addr] is [&*begin_]. *)
Section Enumerated.
Context {C A : Type} (X : iface C A) (addr : Iter X -> nat).

Definition enum_state : Type := (Iter X * Iter X * Z * Z * Item)%type.

(** [SetItem]: [if (begin_ != end_) item_ = _Item{position_, &NonConstValue()};] *)
Definition SetItem (s : enum_state) : enum_state :=
  let '(b, e, p, dl, it) := s in
  if negb (eqb X b e) then (b, e, p, dl, mkItem p (Some (addr b))) else (b, e, p, dl, it).

(** The constructor: [item_{}] is [Item(0, nullptr)], then [SetItem()]. *)
Definition EnumeratedIterator_make (b e : Iter X) (p dl : Z) : enum_state :=
  SetItem (b, e, p, dl, mkItem 0 None).

(** The view's cursors, started at position [start c], moving by [dl]. *)
Definition EnumeratedIterator (start : C -> Z) (dl : Z) : iface C Item :=
  mk_iface enum_state
    (fun c => EnumeratedIterator_make (begin_ X c) (end_ X c) (start c) dl)
    (fun c => EnumeratedIterator_make (end_ X c) (end_ X c) (start c) dl)
    (fun '(b, e, p, d, it) => SetItem (incr X b, e, int_add p d, d, it))
    (fun '(_, _, _, _, it) => it)
    (fun '(b, _, _, _, _) '(b', _, _, _, _) => eqb X b b').

End Enumerated.

Definition kIncrement : Z := 1.
Definition kDecrement : Z := -1.

(** [Enumerated<T>]: [begin()] starts at [0] with [kIncrement]; [rbegin()]
    starts at [MaxPosition() = static_cast<int>(size()) - 1] with
    [kDecrement]. *)
Definition Enumerated {C A} (X : bidi C A) (addr_f : Iter (fwd X) -> nat)
    (addr_b : Iter (bwd X) -> nat) (size : C -> nat) : bidi C Item :=
  mk_bidi (EnumeratedIterator (fwd X) addr_f (fun _ => 0%Z) kIncrement)
          (EnumeratedIterator (bwd X) addr_b
             (fun c => int_add (int_of_size (size c)) (-1)) kDecrement).

(** [Enumerate] over a [std::vector<A>]. *)
Definition Enumerated_vector {A} (dflt : A) : bidi (list A) Item :=
  Enumerated (vector dflt) (@vector_fwd_addr A) (@vector_bwd_addr A) (@length A).

(** [item.Value() = v]: a write through the item's pointer into the
    storage; [None] for a null or out-of-range pointer. *)
Fixpoint store_write {A} (s : list A) (a : nat) (v : A) : option (list A) :=
  match s, a with
  | [], _ => None
  | _ :: s', O => Some (v :: s')
  | x :: s', S a' => option_map (cons x) (store_write s' a' v)
  end.

Definition assign_value {A} (it : Item) (v : A) (s : list A) : option (list A) :=
  match value it with
  | Some a => store_write s a v
  | None => None
  end.

(** The items an enumeration of a vector of length [n] should produce:
    position [k] and a pointer to element [k]. *)
Definition enum_item (k : nat) : Item := mkItem (Z.of_nat k) (Some k).

(** A nested vector with empty inner vectors before, between and after
    the non-empty ones. *)
Definition nested_example : list (list nat) := [[]; []; [1]; []; []; [2]; []; []].

(** *** [Mapped<T, Function>]: [begin()] builds a [MappedIterator] over the
    source's iterators, [rbegin()] one over its reverse iterators. *)
Definition Mapped {C A B} (X : bidi C A) (f : A -> B) : bidi C B :=
  mk_bidi (MappedIterator (fwd X) f) (MappedIterator (bwd X) f).

(** [MapKeys(map)]: [Map(map, [](const auto& map_pair) { return map_pair.first; })]. *)
Definition MapKeys {C K V} (X : bidi C (K * V)) : bidi C K := Mapped X fst.

(** [MapValues(map)]: [Map(map, [](const auto& map_pair) { return map_pair.second; })]. *)
Definition MapValues {C K V} (X : bidi C (K * V)) : bidi C V := Mapped X snd.

(** [Filtered::rbegin()] / [rend()]: a [FilterIterator] over the source's
    reverse iterators. *)
Definition Filtered_reverse_yields {C A} (X : bidi C A) (p : A -> bool) (c : C) (l : list A) : Prop :=
  Filtered_yields (bwd X) p c l.

(** [Chained::rbegin()] / [rend()]: a [ChainedIterator] over the outer
    collection's reverse iterators whose inner iterators come from
    [GetReverseBegin] / [GetReverseEnd]. *)
Definition Chained_reverse_yields {CO CI A} (X : bidi CO CI) (Y : bidi CI A)
    (inner_init : Iter (bwd Y)) (co : CO) (l : list A) : Prop :=
  Chained_yields (bwd X) (bwd Y) inner_init co l.

(** The items an [EnumeratedIterator] started at position [p] with step
    [dl] on source iterator [i] produces for [n] elements: position [p],
    [p + dl], ..., each with the address of the element the source
    iterator designates at that point. *)
Fixpoint enum_expected {C A} (X : iface C A) (addr : Iter X -> nat) (p dl : Z)
    (i : Iter X) (n : nat) : list Item :=
  match n with
  | O => []
  | S n' => mkItem p (Some (addr i)) :: enum_expected X addr (p + dl) dl (incr X i) n'
  end.


(** [ForwardEnumerated<T>] (what [Enumerate] builds over a collection
    without [rbegin()]; [Enumerated<T>] inherits its [begin()] / [end()]):
    cursors start at position [0] and move by [kIncrement]. *)
Definition ForwardEnumerated {C A} (X : iface C A) (addr : Iter X -> nat) : iface C Item :=
  EnumeratedIterator X addr (fun _ => 0%Z) kIncrement.

(** The source iterator after [j] increments from [begin()]. *)
Definition nth_iter {C A} (X : iface C A) (c : C) (j : nat) : Iter X :=
  Nat.iter j (incr X) (begin_ X c).

(** The elements of [c] live in the storage [storage c]: for [k < n], the
    element [*it] of the iterator [it] reached after [k] increments is
    the cell [addr it] ([&*it]) of that storage. *)
Definition stored_in {C A} (X : iface C A) (addr : Iter X -> nat) (storage : C -> list A)
    (d : A) (c : C) (n : nat) : Prop :=
  forall k, k < n ->
    addr (nth_iter X c k) < length (storage c) /\
    deref X (nth_iter X c k) = nth (addr (nth_iter X c k)) (storage c) d.

End Cursors.

(* ------------------------------------------------------------------ *)
(** ** Properties of the compile-time layer *)

Module TraitFacts.
Import Traits.

(** Unfolding equations for the free functions whose body inspects
    [value_type]; rewriting with them keeps the proof terms small. *)
Lemma AsReferences_eq t :
  AsReferences t =
  match value_type t with
  | Some e =>
    Some (TView (if is_unique_pointer e
                 then if is_bidirectional_collection t then VReferencedUnique
                      else VForwardReferencedUnique
                 else if is_bidirectional_collection t then VReferenced
                      else VForwardReferenced) t TVoid)
  | None => None
  end.
Proof. reflexivity. Qed.

Lemma Join_eq t1 t2 :
  Join t1 t2 =
  match value_type t1, value_type t2 with
  | Some e1, Some e2 =>
    if cty_beq e1 e2
    then Some (TJoin (if are_bidirectional_collections t1 t2 then JJoined else JForwardJoined)
                     t1 t2)
    else None
  | _, _ => None
  end.
Proof. reflexivity. Qed.

Lemma Chain_eq t :
  Chain t =
  match value_type t with
  | Some inner =>
    Some (TView (if are_bidirectional_collections t inner then VChained else VForwardChained)
                t TVoid)
  | None => None
  end.
Proof. reflexivity. Qed.

Lemma Reverse_eq t :
  Reverse t = if is_bidirectional_collection t then Some (TView VReversed t TVoid) else None.
Proof. reflexivity. Qed.

(** (C1) Every adaptor among [Iterate], [Enumerate], [Map], [Filter],
    [AsReferences], [Join] and [Chain] produces a view that has [rbegin]
    exactly when every collection it wraps has [rbegin]; the test is the
    structural [has_rbegin] on the type; for [Chain] both the outer
    collection and its [value_type] must pass it. *)
Theorem views_bidirectional_iff_sources :
  (forall t, is_bidirectional_collection t = member_rbegin (remove_cvref t)) /\
  (forall t, is_bidirectional_collection (Iterate t) = is_bidirectional_collection t) /\
  (forall t, is_bidirectional_collection (Enumerate t) = is_bidirectional_collection t) /\
  (forall t f, is_bidirectional_collection (Map t f) = is_bidirectional_collection t) /\
  (forall t, is_bidirectional_collection (Filter t) = is_bidirectional_collection t) /\
  (forall t v, AsReferences t = Some v ->
     is_bidirectional_collection v = is_bidirectional_collection t) /\
  (forall t1 t2 v, Join t1 t2 = Some v ->
     is_bidirectional_collection v =
     is_bidirectional_collection t1 && is_bidirectional_collection t2) /\
  (forall t v, Chain t = Some v ->
     exists inner, value_type t = Some inner /\
     is_bidirectional_collection v =
     is_bidirectional_collection t && is_bidirectional_collection inner).
Proof.
  split; [reflexivity|].
  split; [intros t; unfold Iterate; destruct (is_bidirectional_collection t); reflexivity|].
  split; [intros t; unfold Enumerate; destruct (is_bidirectional_collection t); reflexivity|].
  split; [intros t f; unfold Map; destruct (is_bidirectional_collection t); reflexivity|].
  split; [intros t; unfold Filter; destruct (is_bidirectional_collection t); reflexivity|].
  split; [|split].
  - intros t v H; rewrite AsReferences_eq in H.
    destruct (value_type t) as [e|]; [|discriminate].
    injection H as <-.
    destruct (is_unique_pointer e), (is_bidirectional_collection t); reflexivity.
  - intros t1 t2 v H; rewrite Join_eq in H.
    destruct (value_type t1) as [e1|], (value_type t2) as [e2|]; try discriminate.
    destruct (cty_beq e1 e2); [|discriminate].
    injection H as <-; unfold are_bidirectional_collections.
    destruct (is_bidirectional_collection t1 && is_bidirectional_collection t2); reflexivity.
  - intros t v H; rewrite Chain_eq in H.
    destruct (value_type t) as [inner|]; [|discriminate].
    injection H as <-; exists inner; split; [reflexivity|].
    unfold are_bidirectional_collections.
    destruct (is_bidirectional_collection t && is_bidirectional_collection inner); reflexivity.
Qed.

Lemma views_bidirectional_iff_sources_witness :
  Chain (TRef (TStd StdVector (TStd StdForwardList TInt))) =
    Some (TView VForwardChained (TRef (TStd StdVector (TStd StdForwardList TInt))) TVoid) /\
  exists inner, value_type (TRef (TStd StdVector (TStd StdForwardList TInt))) = Some inner /\
    is_bidirectional_collection
      (TView VForwardChained (TRef (TStd StdVector (TStd StdForwardList TInt))) TVoid) =
    is_bidirectional_collection (TRef (TStd StdVector (TStd StdForwardList TInt))) &&
    is_bidirectional_collection inner.
Proof.
  split; [reflexivity|].
  apply (proj2 (proj2 (proj2 (proj2 (proj2 (proj2 (proj2 views_bidirectional_iff_sources)))))));
    reflexivity.
Defined.

(** (C2, as claimed) "A view is read-only iff the binding is read-only or
    the source's mutable traversal yields a read-only value" fails for
    [AsReferences] over a non-const [std::set<int*>&]: the set's
    [iterator] yields [int* const&], so [is_const_collection] holds, but
    the view picks its non-const iterator, which yields [int&]. *)
Lemma AsReferences_set_of_pointers_not_read_only :
  ~ (forall t v, AsReferences t = Some v ->
       iterator_is_const_iterator v = is_const_collection t) /\
  AsReferences (TRef (TStd StdSet (TPtr TInt))) =
    Some (TView VReferenced (TRef (TStd StdSet (TPtr TInt))) TVoid) /\
  is_const_type (TRef (TStd StdSet (TPtr TInt))) = false /\
  iter_deref (TRef (TStd StdSet (TPtr TInt))) false = Some (TRef (TConst (TPtr TInt))) /\
  is_const_collection (TRef (TStd StdSet (TPtr TInt))) = Some true /\
  iterator_is_const_iterator (TView VReferenced (TRef (TStd StdSet (TPtr TInt))) TVoid) =
    Some false /\
  iter_deref (TView VReferenced (TRef (TStd StdSet (TPtr TInt))) TVoid) false =
    Some (TRef TInt) /\
  read_only_access (TRef TInt) = false.
Proof.
  split.
  - intros H.
    specialize (H (TRef (TStd StdSet (TPtr TInt)))
                  (TView VReferenced (TRef (TStd StdSet (TPtr TInt))) TVoid) eq_refl).
    discriminate H.
  - repeat split.
Qed.

(** (C2, amended) Every view picks its read-only [const_iterator] as its
    [iterator] when the binding it was given is const ([is_const_type];
    for [Join] when either binding is).  Only [Enumerate] also consults
    the second signal, [is_const_collection]: the source's own
    [iterator] yielding a const value.  The other adaptors decide on the
    binding alone. *)
Theorem view_iterator_constness :
  (forall t, is_const_collection t =
     option_map (fun d => is_const_type t || is_const_type d) (iter_deref t false)) /\
  (forall t, iterator_is_const_iterator (Enumerate t) = is_const_collection t) /\
  (forall t, iterator_is_const_iterator (Iterate t) = Some (is_const_type t)) /\
  (forall t f, iterator_is_const_iterator (Map t f) = Some (is_const_type t)) /\
  (forall t, iterator_is_const_iterator (Filter t) = Some (is_const_type t)) /\
  (forall t v, AsReferences t = Some v ->
     iterator_is_const_iterator v = Some (is_const_type t)) /\
  (forall t v, Chain t = Some v -> iterator_is_const_iterator v = Some (is_const_type t)) /\
  (forall t v, Reverse t = Some v -> iterator_is_const_iterator v = Some (is_const_type t)) /\
  (forall t1 t2 v, Join t1 t2 = Some v ->
     iterator_is_const_iterator v = Some (is_const_type t1 || is_const_type t2)).
Proof.
  split; [intros t; unfold is_const_collection; destruct (iter_deref t false); reflexivity|].
  split; [intros t; unfold Enumerate; destruct (is_bidirectional_collection t); reflexivity|].
  split; [intros t; unfold Iterate; destruct (is_bidirectional_collection t); reflexivity|].
  split; [intros t f; unfold Map; destruct (is_bidirectional_collection t); reflexivity|].
  split; [intros t; unfold Filter; destruct (is_bidirectional_collection t); reflexivity|].
  split; [|split; [|split]].
  - intros t v H; rewrite AsReferences_eq in H.
    destruct (value_type t) as [e|]; [|discriminate].
    injection H as <-.
    destruct (is_unique_pointer e), (is_bidirectional_collection t); reflexivity.
  - intros t v H; rewrite Chain_eq in H.
    destruct (value_type t) as [inner|]; [|discriminate].
    injection H as <-.
    destruct (are_bidirectional_collections t inner); reflexivity.
  - intros t v H; rewrite Reverse_eq in H.
    destruct (is_bidirectional_collection t); [|discriminate].
    injection H as <-; reflexivity.
  - intros t1 t2 v H; rewrite Join_eq in H.
    destruct (value_type t1) as [e1|], (value_type t2) as [e2|]; try discriminate.
    destruct (cty_beq e1 e2); [|discriminate].
    injection H as <-.
    destruct (are_bidirectional_collections t1 t2); reflexivity.
Qed.

Lemma view_iterator_constness_witness :
  Join (TRef (TStd StdVector TInt)) (TRef (TConst (TStd StdList TInt))) =
    Some (TJoin JJoined (TRef (TStd StdVector TInt)) (TRef (TConst (TStd StdList TInt)))) /\
  iterator_is_const_iterator
    (TJoin JJoined (TRef (TStd StdVector TInt)) (TRef (TConst (TStd StdList TInt)))) =
  Some (is_const_type (TRef (TStd StdVector TInt)) ||
        is_const_type (TRef (TConst (TStd StdList TInt)))).
Proof.
  split; [reflexivity|].
  apply (proj2 (proj2 (proj2 (proj2 (proj2 (proj2 (proj2 (proj2 view_iterator_constness))))))));
    reflexivity.
Defined.

(** (C8) A [Map] cursor returns the computed value.  In iterators.h the
    one [operator*] returns it by value for both cursors.  In
    iterator_utilities.h the non-const [operator*] returns the value but
    the const one, [const auto& operator*() const], returns a reference
    bound to the temporary that [mapping_function_] produced, which is
    gone when the call returns. *)
Theorem Map_deref_by_value_and_util_divergence :
  (forall cursor_const f, MappedIterator_deref cursor_const f = ByValue (remove_cvref f)) /\
  Mapped_Iterator_deref_util false TInt = ByValue TInt /\
  Mapped_Iterator_deref_util true TInt = ByRef (TConst TInt) RTemporary /\
  Mapped_Iterator_deref_util true TInt <> Mapped_Iterator_deref_util false TInt.
Proof.
  split; [reflexivity|].
  split; [reflexivity|].
  split; [reflexivity|].
  discriminate.
Qed.

(* ------------------------------------------------------------------ *)
(** *** Element access of further views *)

Lemma cty_beq_refl (t : cty) : cty_beq t t = true.
Proof. apply internal_cty_dec_lb; reflexivity. Qed.

Lemma cty_not_const_self (t : cty) : t <> TConst t.
Proof. induction t; try discriminate; intros H; injection H as H; auto. Qed.

Lemma cty_beq_ref_const (t : cty) : cty_beq (TRef t) (TRef (TConst t)) = false.
Proof.
  destruct (cty_beq (TRef t) (TRef (TConst t))) eqn:E; [|reflexivity].
  apply internal_cty_dec_bl in E; injection E as E.
  exfalso; exact (cty_not_const_self t E).
Qed.

Lemma cty_beq_const_ref (t : cty) : cty_beq (TRef (TConst t)) (TRef t) = false.
Proof.
  destruct (cty_beq (TRef (TConst t)) (TRef t)) eqn:E; [|reflexivity].
  apply internal_cty_dec_bl in E; injection E as E.
  exfalso; exact (cty_not_const_self t (eq_sym E)).
Qed.

Lemma referenced_return_object (ro : bool) (v : cty) :
  remove_cv v <> TVoid -> referenced_return ro v = Some (TRef (if ro then TConst v else v)).
Proof.
  unfold referenced_return; intros Hv.
  destruct (remove_cv v); [exfalso; apply Hv; reflexivity|reflexivity..].
Qed.

(** [AsReferences] over a container of [T*] or of [std::unique_ptr<T>]
    with [T] not (cv-)[void] (any standard container, also a [std::set]
    whose pointers are themselves const): the view's [value_type] is [T]
    and its cursors give [T&], or [const T&] when the binding is const. *)
Theorem AsReferences_pointee_access (k : std_kind) (e : cty) (b : bool) :
  remove_cv e <> TVoid ->
  (exists v, AsReferences (binding b (TStd k (TPtr e))) = Some v /\
     value_type v = Some e /\ iter_deref v false = Some (TRef (if b then TConst e else e))) /\
  (exists v, AsReferences (binding b (TStd k (TUniquePtr e))) = Some v /\
     value_type v = Some e /\ iter_deref v false = Some (TRef (if b then TConst e else e))).
Proof.
  intros He.
  split; eexists; rewrite AsReferences_eq; destruct k, b; split; try reflexivity; split;
    try reflexivity; unfold iter_deref; cbv -[referenced_return];
    apply referenced_return_object; exact He.
Qed.

Lemma AsReferences_pointee_access_witness :
  remove_cv TInt <> TVoid /\
  exists v, AsReferences (binding false (TStd StdList (TPtr TInt))) = Some v /\
    value_type v = Some TInt /\ iter_deref v false = Some (TRef TInt).
Proof.
  assert (H : remove_cv TInt <> TVoid) by discriminate.
  split; [exact H|].
  exact (proj1 (AsReferences_pointee_access StdList TInt false H)).
Defined.

(** A container of [void*]: [AsReferences] accepts it ([value_type] is
    [void]), but [ReferencedIterator<_, void>] would declare
    [void& operator*()], so its cursors cannot be dereferenced. *)
Lemma AsReferences_void_pointers (k : std_kind) (b : bool) :
  exists v, AsReferences (binding b (TStd k (TPtr TVoid))) = Some v /\
    value_type v = Some TVoid /\ iter_deref v false = None.
Proof.
  eexists; rewrite AsReferences_eq; destruct k, b; split; try reflexivity; split; reflexivity.
Qed.



(** [Chain] over a binding of a container of containers: its cursors give
    a reference to the inner element, const only when the binding is
    const or the inner container's iterator is (a set).  The outer
    container does not matter: over a non-const [std::set<std::vector<T>>&],
    whose own iterator yields [const std::vector<T>&], [Chain] still gives
    a mutable [T&] ([InitializeInnerCollection] casts the const away). *)
Theorem Chain_inner_access (k1 k2 : std_kind) (e : cty) (b : bool) :
  (exists v, Chain (binding b (TStd k1 (TStd k2 e))) = Some v /\
     iter_deref v false =
       Some (TRef (if b || std_iterator_is_const k2 then TConst e else e))) /\
  iter_deref (Iterate (binding false (TStd k1 (TStd k2 e)))) false =
    Some (TRef (if std_iterator_is_const k1 then TConst (TStd k2 e) else TStd k2 e)).
Proof.
  split.
  - destruct k1, k2, b; eexists; rewrite Chain_eq; split; reflexivity.
  - destruct k1; reflexivity.
Qed.

(** [Join] of two bindings of standard containers with the same element
    type [T] is accepted, but the [auto&] that its cursor's [operator*]
    deduces from [*first_] and [*second_] must agree.  With either binding
    const both cursors give [const T&].  With both non-const, dereferencing
    compiles only when both containers' iterators are alike: joining a
    [std::set<T>&] (which gives [const T&]) with a [std::vector<T>&]
    (which gives [T&]) has no valid [operator*]. *)
Theorem Join_deref_deduction (k1 k2 : std_kind) (e : cty) (b1 b2 : bool) :
  exists v, Join (binding b1 (TStd k1 e)) (binding b2 (TStd k2 e)) = Some v /\
    iter_deref v false =
      if b1 || b2 then Some (TRef (TConst e))
      else if Bool.eqb (std_iterator_is_const k1) (std_iterator_is_const k2)
           then Some (TRef (if std_iterator_is_const k1 then TConst e else e))
           else None.
Proof.
  destruct b1, b2, k1, k2; eexists; rewrite Join_eq; split;
    try (simpl; rewrite cty_beq_refl; reflexivity);
    unfold iter_deref; cbv -[cty_beq];
      rewrite ?cty_beq_refl, ?cty_beq_ref_const, ?cty_beq_const_ref; reflexivity.
Qed.

End TraitFacts.

(* ------------------------------------------------------------------ *)
(** ** Properties of the cursors *)

Module CursorFacts.
Import Cursors.

(** *** The range-for loop *)

Lemma walk_sound {C A} (X : iface C A) (e : Iter X) :
  forall n i l, walk X e n i = Some l -> yields_from X e i l.
Proof.
  induction n as [|n IH]; intros i l H; simpl in H.
  - destruct (eqb X i e) eqn:E; [|discriminate].
    injection H as <-; now constructor.
  - destruct (eqb X i e) eqn:E.
    + injection H as <-; now constructor.
    + destruct (walk X e n (incr X i)) as [l'|] eqn:W; [|discriminate].
      injection H as <-; constructor; [assumption|].
      now apply IH.
Qed.

Lemma yields_from_det {C A} (X : iface C A) (e : Iter X) :
  forall i l1, yields_from X e i l1 -> forall l2, yields_from X e i l2 -> l1 = l2.
Proof.
  induction 1 as [i H|i l H _ IH]; intros l2 H2; inversion H2; subst; try congruence.
  f_equal; auto.
Qed.

(** *** The [std::vector] model *)

Lemma skipn_nth_cons {A} (d : A) :
  forall (s : list A) i, i < length s -> skipn i s = nth i s d :: skipn (S i) s.
Proof.
  induction s as [|x s IH]; intros [|i] H; simpl in *; try lia; auto.
  apply IH; lia.
Qed.

Lemma firstn_S_nth {A} (d : A) :
  forall (s : list A) b, b < length s -> firstn (S b) s = firstn b s ++ [nth b s d].
Proof.
  induction s as [|x s IH]; intros [|b] H; simpl in *; try lia; auto.
  rewrite IH by lia; reflexivity.
Qed.

Lemma vector_fwd_yields {A} (d : A) (s : list A) : yields (vector_fwd d) s s.
Proof.
  unfold yields; simpl.
  assert (G : forall k i, i + k = length s ->
            yields_from (vector_fwd d) (length s, s) (i, s) (skipn i s)).
  { induction k as [|k IH]; intros i Hi.
    - rewrite Nat.add_0_r in Hi; subst i.
      rewrite skipn_all; constructor; simpl; apply Nat.eqb_refl.
    - rewrite (skipn_nth_cons d) by lia.
      apply (yields_step (vector_fwd d) (length s, s) (i, s)).
      + simpl; apply Nat.eqb_neq; lia.
      + simpl; apply IH; lia. }
  apply (G (length s) 0); reflexivity.
Qed.

Lemma vector_bwd_yields {A} (d : A) (s : list A) : yields (vector_bwd d) s (rev s).
Proof.
  unfold yields; simpl.
  assert (G : forall b, b <= length s ->
            yields_from (vector_bwd d) (0, s) (b, s) (rev (firstn b s))).
  { induction b as [|b IH]; intros Hb.
    - constructor; reflexivity.
    - rewrite (firstn_S_nth d) by lia; rewrite rev_unit.
      apply (yields_step (vector_bwd d) (0, s) (S b, s)); [reflexivity|].
      simpl; apply IH; lia. }
  replace (rev s) with (rev (firstn (length s) s)) by now rewrite firstn_all.
  apply G; lia.
Qed.

Lemma vector_fwd_refl {A} (d : A) : iface_refl (vector_fwd d).
Proof. intros [i s]; apply Nat.eqb_refl. Qed.

Lemma vector_bwd_refl {A} (d : A) : iface_refl (vector_bwd d).
Proof. intros [i s]; apply Nat.eqb_refl. Qed.

(** (C3) [Reverse(Reverse(c))] traverses like [c] in both directions, and
    forward traversal of [Reverse(c)] is the reverse traversal of [c]
    and the other way round. *)
Theorem Reversed_traversal {C A} (X : bidi C A) (c : C) (l : list A) :
  (yields (fwd (Reversed (Reversed X))) c l <-> yields (fwd X) c l) /\
  (yields (bwd (Reversed (Reversed X))) c l <-> yields (bwd X) c l) /\
  (yields (fwd (Reversed X)) c l <-> yields (bwd X) c l) /\
  (yields (bwd (Reversed X)) c l <-> yields (fwd X) c l) /\
  (forall (d : A) (s : list A),
     yields (fwd (Reversed (vector d))) s (rev s) /\
     yields (fwd (Reversed (Reversed (vector d)))) s s).
Proof.
  do 4 (split; [destruct X as [F B]; split; intros H; exact H|]).
  intros d s; split; [apply vector_bwd_yields|apply vector_fwd_yields].
Qed.

(** *** [JoinedIterator] *)

Lemma JoinedIterator_second {C C1 C2 A} (X : iface C1 A) (Y : iface C2 A)
    (p1 : C -> C1) (p2 : C -> C2) (f fe : Iter X) (se : Iter Y) :
  eqb X f fe = true ->
  forall s l, yields_from Y se s l ->
  yields_from (JoinedIterator X Y p1 p2) (fe, fe, se, se) (f, fe, s, se) l.
Proof.
  intros Hf s l H; induction H as [s Hs|s l Hs _ IH].
  - constructor; simpl; rewrite Hf, Hs; reflexivity.
  - assert (D : deref Y s = deref (JoinedIterator X Y p1 p2) (f, fe, s, se))
      by (simpl; rewrite Hf; reflexivity).
    rewrite D; constructor.
    + simpl; rewrite Hf, Hs; reflexivity.
    + simpl; rewrite Hf; exact IH.
Qed.

Lemma JoinedIterator_yields {C C1 C2 A} (X : iface C1 A) (Y : iface C2 A)
    (p1 : C -> C1) (p2 : C -> C2) (fe : Iter X) (s se : Iter Y) l2 :
  yields_from Y se s l2 ->
  forall f l1, yields_from X fe f l1 ->
  yields_from (JoinedIterator X Y p1 p2) (fe, fe, se, se) (f, fe, s, se) (l1 ++ l2).
Proof.
  intros H2 f l1 H1; induction H1 as [f Hf|f l1 Hf _ IH].
  - now apply JoinedIterator_second.
  - assert (D : deref X f = deref (JoinedIterator X Y p1 p2) (f, fe, s, se))
      by (simpl; rewrite Hf; reflexivity).
    simpl app; rewrite D; constructor.
    + simpl; rewrite Hf; reflexivity.
    + simpl; rewrite Hf; exact IH.
Qed.

(** (C4) [Join(a, b)] traverses the elements of [a] and then those of
    [b]; when both are bidirectional its reverse traversal is the
    reverse traversal of [b] followed by that of [a]. *)
Theorem Join_traversal {C1 C2 A : Type} :
  (forall (X : iface C1 A) (Y : iface C2 A) c1 c2 l1 l2,
     yields X c1 l1 -> yields Y c2 l2 ->
     yields (ForwardJoined X Y) (c1, c2) (l1 ++ l2)) /\
  (forall (X : bidi C1 A) (Y : bidi C2 A) c1 c2 l1 l2 r1 r2,
     yields (fwd X) c1 l1 -> yields (fwd Y) c2 l2 ->
     yields (bwd X) c1 r1 -> yields (bwd Y) c2 r2 ->
     yields (fwd (Joined X Y)) (c1, c2) (l1 ++ l2) /\
     yields (bwd (Joined X Y)) (c1, c2) (r2 ++ r1)).
Proof.
  split.
  - intros X Y c1 c2 l1 l2 H1 H2; unfold yields in *; simpl.
    now apply JoinedIterator_yields.
  - intros X Y c1 c2 l1 l2 r1 r2 H1 H2 H3 H4; unfold yields in *; simpl.
    split; now apply JoinedIterator_yields.
Qed.

Lemma Join_traversal_witness :
  yields (fwd (Joined (vector 0) (vector 0))) ([1; 2; 3], [4; 5; 6]) [1; 2; 3; 4; 5; 6] /\
  yields (bwd (Joined (vector 0) (vector 0))) ([1; 2; 3], [4; 5; 6]) [6; 5; 4; 3; 2; 1].
Proof.
  apply (proj2 (@Join_traversal (list nat) (list nat) nat)
           (vector 0) (vector 0) [1; 2; 3] [4; 5; 6] [1; 2; 3] [4; 5; 6] [3; 2; 1] [6; 5; 4]).
  - apply vector_fwd_yields.
  - apply vector_fwd_yields.
  - apply (vector_bwd_yields 0 [1; 2; 3]).
  - apply (vector_bwd_yields 0 [4; 5; 6]).
Defined.

(** (C9) Two [Join] cursors are equal exactly when their positions in the
    first collection and in the second collection are both equal; with
    reflexive source iterators every cursor, the one at the switch from
    the first collection to the second included, equals itself. *)
Theorem JoinedIterator_eqb_spec {C C1 C2 A} (X : iface C1 A) (Y : iface C2 A)
    (p1 : C -> C1) (p2 : C -> C2) :
  (forall f fe s se f' fe' s' se',
     eqb (JoinedIterator X Y p1 p2) (f, fe, s, se) (f', fe', s', se') = true <->
     eqb X f f' = true /\ eqb Y s s' = true) /\
  (iface_refl X -> iface_refl Y -> iface_refl (JoinedIterator X Y p1 p2)).
Proof.
  split.
  - intros; simpl; apply andb_true_iff.
  - intros HX HY [[[f fe] s] se]; simpl; rewrite HX, HY; reflexivity.
Qed.

Lemma JoinedIterator_eqb_spec_witness :
  eqb (ForwardJoined (vector_fwd 0) (vector_fwd 0))
      ((3, [1; 2; 3]), (3, [1; 2; 3]), (0, [4; 5]), (2, [4; 5]))
      ((3, [1; 2; 3]), (3, [1; 2; 3]), (0, [4; 5]), (2, [4; 5])) = true.
Proof.
  apply (proj2 (JoinedIterator_eqb_spec (vector_fwd 0) (vector_fwd 0) fst snd)).
  - apply vector_fwd_refl.
  - apply vector_fwd_refl.
Defined.

(** *** [FilterIterator] *)

Section FilterFacts.
Context {C A : Type} (X : iface C A) (p : A -> bool).

Lemma SkipFilteredEntries_det e :
  forall i j1, SkipFilteredEntries X p e i j1 -> forall j2, SkipFilteredEntries X p e i j2 -> j1 = j2.
Proof.
  induction 1 as [i H|i H1 H2|i j H1 H2 _ IH]; intros j2 H'; inversion H'; subst;
    try congruence; auto.
Qed.

Lemma SkipFilteredEntries_exists e :
  forall i l, yields_from X e i l -> exists j, SkipFilteredEntries X p e i j.
Proof.
  induction 1 as [i H|i l H _ [j IH]].
  - exists i; now apply skip_is_end.
  - destruct (p (deref X i)) eqn:P.
    + exists i; now apply skip_kept.
    + exists j; now apply skip_filtered.
Qed.

(** Whatever [SkipFilteredEntries] stops at is the end or a kept element. *)
Lemma SkipFilteredEntries_kept e :
  forall i j, SkipFilteredEntries X p e i j -> eqb X j e = false -> p (deref X j) = true.
Proof.
  induction 1 as [i H|i H1 H2|i j H1 H2 _ IH]; intros He; auto; congruence.
Qed.

Lemma SkipFilteredEntries_at_end e :
  iface_refl X -> forall j, SkipFilteredEntries X p e e j -> j = e.
Proof.
  intros R j H; inversion H; subst; auto; rewrite R in *; discriminate.
Qed.

Lemma filter_loop_yields e :
  forall i l, yields_from X e i l ->
  forall j, SkipFilteredEntries X p e i j -> filter_loop X p (e, e) (j, e) (filter p l).
Proof.
  induction 1 as [i H|i l H Hl IH]; intros j Hs.
  - inversion Hs; subst; try congruence.
    constructor; exact H.
  - inversion Hs; subst; try congruence.
    + (* the element is kept *)
      destruct (SkipFilteredEntries_exists e (incr X j) l Hl) as [j' Hj'].
      simpl; rewrite H1.
      change (deref X j) with (FilterIterator_deref X (j, e)).
      apply (filter_loop_step X p (e, e) (j, e) (j', e)).
      * exact H.
      * exists j'; split; [exact Hj'|reflexivity].
      * now apply IH.
    + (* the element is filtered out *)
      simpl; rewrite H1; now apply IH.
Qed.

Lemma filter_loop_det se :
  forall s l1, filter_loop X p se s l1 -> forall l2, filter_loop X p se s l2 -> l1 = l2.
Proof.
  induction 1 as [s H|s s' l H Hi _ IH]; intros l2 H2; inversion H2; subst; try congruence.
  f_equal; apply IH.
  destruct Hi as [j [Hj ->]], H1 as [j' [Hj' ->]].
  rewrite (SkipFilteredEntries_det _ _ _ Hj _ Hj'); assumption.
Qed.

End FilterFacts.

(** (C6) [Filter(c, p)] traverses exactly the elements of [c] that satisfy
    [p], in order; when none does, its [begin()] equals its [end()]; and
    every cursor it builds ([begin()], [end()], [operator++]) that is not
    at the end designates an element satisfying [p]. *)
Theorem Filter_traversal {C A} (X : iface C A) (p : A -> bool) :
  iface_refl X ->
  forall c l, yields X c l ->
  Filtered_yields X p c (filter p l) /\
  (forall l', Filtered_yields X p c l' -> l' = filter p l) /\
  (filter p l = [] ->
     forall sb se, Filtered_begin X p c sb -> Filtered_end X p c se ->
     FilterIterator_eqb X sb se = true) /\
  (forall b s, FilterIterator_make X p b (snd s) s ->
     eqb X (fst s) (snd s) = false -> p (FilterIterator_deref X s) = true).
Proof.
  intros R c l H.
  destruct (SkipFilteredEntries_exists X p _ _ _ H) as [j Hj].
  assert (Hend : SkipFilteredEntries X p (end_ X c) (end_ X c) (end_ X c))
    by (apply skip_is_end; apply R).
  assert (Hloop := filter_loop_yields X p _ _ _ H j Hj).
  split; [|split; [|split]].
  - exists (j, end_ X c), (end_ X c, end_ X c); repeat split.
    + exists j; split; [exact Hj|reflexivity].
    + exists (end_ X c); split; [exact Hend|reflexivity].
    + exact Hloop.
  - intros l' [sb [se [[j1 [Hj1 ->]] [[j2 [Hj2 ->]] Hl']]]].
    rewrite (SkipFilteredEntries_det X p _ _ _ Hj1 _ Hj) in Hl'.
    rewrite (SkipFilteredEntries_at_end X p _ R _ Hj2) in Hl'.
    exact (filter_loop_det X p _ _ _ Hl' _ Hloop).
  - intros Hnil sb se [j1 [Hj1 ->]] [j2 [Hj2 ->]].
    rewrite (SkipFilteredEntries_det X p _ _ _ Hj1 _ Hj).
    rewrite (SkipFilteredEntries_at_end X p _ R _ Hj2).
    rewrite Hnil in Hloop; inversion Hloop; subst; assumption.
  - intros b [i e] [j1 [Hj1 E]] He; simpl in *.
    inversion E; subst.
    exact (SkipFilteredEntries_kept X p _ _ _ Hj1 He).
Qed.

Lemma Filter_traversal_witness :
  Filtered_yields (vector_fwd 0) Nat.even [1; 2; 3; 4; 5] [2; 4].
Proof.
  apply (proj1 (Filter_traversal (vector_fwd 0) Nat.even (vector_fwd_refl 0)
                  [1; 2; 3; 4; 5] [1; 2; 3; 4; 5] (vector_fwd_yields 0 _))).
Defined.

(** *** [ChainedIterator] *)

Section ChainFacts.
Context {CO CI A : Type} (O : iface CO CI) (N : iface CI A) (inner_init : Iter N).

Lemma SkipEmptyInnerCollections_det :
  forall s s1, SkipEmptyInnerCollections O N s s1 ->
  forall s2, SkipEmptyInnerCollections O N s s2 -> s1 = s2.
Proof.
  induction 1 as [s H|s s1 H _ IH]; intros s2 H2; inversion H2; subst; try congruence.
  now apply IH.
Qed.

Lemma chain_loop_det se :
  forall s l1, chain_loop O N se s l1 -> forall l2, chain_loop O N se s l2 -> l1 = l2.
Proof.
  induction 1 as [s H|s s' l H Hi _ IH]; intros l2 H2; inversion H2; subst; try congruence.
  f_equal; apply IH.
  destruct s as [[[ob oe] ib] ie]; simpl in Hi, H1.
  rewrite (SkipEmptyInnerCollections_det _ _ Hi _ H1); assumption.
Qed.

Section Loop.
Variable se : chain_state O N.
Hypothesis Hse : IsAtEnd O N se = true.

(** Walking the rest [l0] of the current inner collection, then the
    inner collections after the current outer position ([rest]). *)
Lemma chain_inner_walk (ob oe : Iter O) (ie : Iter N) (rest : list A) :
  eqb O ob oe = false ->
  (forall x y, exists s', SkipEmptyInnerCollections O N
                            (InitializeInnerCollection O N (incr O ob, oe, x, y)) s' /\
                          chain_loop O N se s' rest) ->
  forall ib l0, yields_from N ie ib l0 ->
  exists s', SkipEmptyInnerCollections O N (ob, oe, ib, ie) s' /\
             chain_loop O N se s' (l0 ++ rest).
Proof.
  intros Hne K ib l0 H; induction H as [ib Hi|ib l0 Hi _ [s' [Hs' Hl']]].
  - destruct (K ib ie) as [s' [Hs' Hl']].
    exists s'; split; [|exact Hl'].
    apply skip_inner_advance; [simpl; rewrite Hne, Hi; reflexivity|exact Hs'].
  - exists (ob, oe, ib, ie); split.
    + apply skip_inner_done; simpl; rewrite Hne, Hi; reflexivity.
    + change (deref N ib :: l0 ++ rest)
        with (ChainedIterator_deref O N (ob, oe, ib, ie) :: l0 ++ rest).
      apply (chain_loop_step O N se (ob, oe, ib, ie) s').
      * unfold ChainedIterator_eqb; rewrite Hse; simpl; rewrite Hne; reflexivity.
      * exact Hs'.
      * exact Hl'.
Qed.

Lemma chain_outer_walk (oe : Iter O) :
  forall ob cs, yields_from O oe ob cs ->
  forall ls, Forall2 (yields N) cs ls ->
  forall x y, exists s', SkipEmptyInnerCollections O N
                           (InitializeInnerCollection O N (ob, oe, x, y)) s' /\
                         chain_loop O N se s' (concat ls).
Proof.
  induction 1 as [ob H|ob cs H _ IH]; intros ls HF x y.
  - inversion HF; subst.
    exists (ob, oe, x, y); simpl; rewrite H; simpl; split.
    + apply skip_inner_done; simpl; rewrite H; reflexivity.
    + apply chain_loop_stop; unfold ChainedIterator_eqb; rewrite Hse; simpl; rewrite H; reflexivity.
  - inversion HF as [|ci l0 cs' ls' Hl0 HF']; subst.
    simpl InitializeInnerCollection; rewrite H; simpl negb; cbv iota.
    apply (chain_inner_walk ob oe (end_ N (deref O ob)) (concat ls') H (IH ls' HF')).
    exact Hl0.
Qed.

End Loop.

End ChainFacts.

(** (C5) [Chain(c)] traverses exactly the concatenation of the inner
    collections of [c] in outer order: empty inner collections, in any
    number and position, including all of them, add nothing and do not
    stop the traversal early. *)
Theorem Chain_traversal {CO CI A} (O : iface CO CI) (N : iface CI A) (inner_init : Iter N) :
  iface_refl O ->
  forall co cs ls, yields O co cs -> Forall2 (yields N) cs ls ->
  Chained_yields O N inner_init co (concat ls) /\
  (forall l', Chained_yields O N inner_init co l' -> l' = concat ls).
Proof.
  intros R co cs ls Hcs HF.
  set (se := (end_ O co, end_ O co, inner_init, inner_init) : chain_state O N).
  assert (Hse : IsAtEnd O N se = true) by apply R.
  assert (Hend : Chained_end O N inner_init co se).
  { unfold Chained_end, ChainedIterator_make; simpl; rewrite R; simpl.
    apply skip_inner_done; simpl; rewrite R; reflexivity. }
  destruct (chain_outer_walk O N se Hse (end_ O co) (begin_ O co) cs Hcs ls HF
              inner_init inner_init) as [sb [Hsb Hl]].
  split.
  - exists sb, se; repeat split; assumption.
  - intros l' [sb' [se' [Hsb' [Hse' Hl']]]].
    unfold Chained_begin, ChainedIterator_make in Hsb'.
    unfold Chained_end, ChainedIterator_make in Hse', Hend.
    rewrite (SkipEmptyInnerCollections_det O N _ _ Hsb' _ Hsb) in Hl'.
    rewrite (SkipEmptyInnerCollections_det O N _ _ Hse' _ Hend) in Hl'.
    exact (chain_loop_det O N _ _ _ Hl' _ Hl).
Qed.

Lemma Chain_traversal_witness :
  Chained_yields (vector_fwd []) (vector_fwd 0) (0, []) nested_example [1; 2].
Proof.
  apply (proj1 (Chain_traversal (vector_fwd []) (vector_fwd 0) (0, []) (vector_fwd_refl [])
                  nested_example nested_example [[]; []; [1]; []; []; [2]; []; []]
                  (vector_fwd_yields [] nested_example)
                  ltac:(repeat constructor; apply vector_fwd_yields))).
Defined.

(** (C10) Two [Chain] cursors are equal exactly when both or neither are
    at the end of the outer collection, so any two cursors that are not
    at the end compare equal, whatever elements they designate. *)
Theorem ChainedIterator_eqb_spec {CO CI A} (O : iface CO CI) (N : iface CI A) :
  (forall s1 s2, ChainedIterator_eqb O N s1 s2 = true <-> IsAtEnd O N s1 = IsAtEnd O N s2) /\
  (forall s1 s2, IsAtEnd O N s1 = false -> IsAtEnd O N s2 = false ->
     ChainedIterator_eqb O N s1 s2 = true).
Proof.
  split.
  - intros s1 s2; unfold ChainedIterator_eqb; apply Bool.eqb_true_iff.
  - intros s1 s2 H1 H2; unfold ChainedIterator_eqb; rewrite H1, H2; reflexivity.
Qed.

Lemma ChainedIterator_eqb_spec_witness :
  ChainedIterator_deref (vector_fwd []) (vector_fwd 0)
    ((0, [[1; 2]]), (1, [[1; 2]]), (0, [1; 2]), (2, [1; 2])) = 1 /\
  ChainedIterator_deref (vector_fwd []) (vector_fwd 0)
    ((0, [[1; 2]]), (1, [[1; 2]]), (1, [1; 2]), (2, [1; 2])) = 2 /\
  ChainedIterator_eqb (vector_fwd []) (vector_fwd 0)
    ((0, [[1; 2]]), (1, [[1; 2]]), (0, [1; 2]), (2, [1; 2]))
    ((0, [[1; 2]]), (1, [[1; 2]]), (1, [1; 2]), (2, [1; 2])) = true.
Proof.
  split; [reflexivity|split; [reflexivity|]].
  apply (proj2 (ChainedIterator_eqb_spec (vector_fwd []) (vector_fwd 0))); reflexivity.
Defined.

(** *** [EnumeratedIterator] over a [std::vector] *)

Lemma int_wrap_small (z : Z) : (- 2 ^ 31 <= z <= INT_MAX)%Z -> int_wrap z = z.
Proof.
  unfold int_wrap, INT_MAX; intros H.
  rewrite Z.mod_small by lia; lia.
Qed.

Lemma EnumeratedIterator_make_end {C A} (X : iface C A) addr (e : Iter X) p dl :
  eqb X e e = true ->
  EnumeratedIterator_make X addr e e p dl = (e, e, p, dl, mkItem 0 None).
Proof. intros H; unfold EnumeratedIterator_make, SetItem; rewrite H; reflexivity. Qed.

Lemma SetItem_step {C A} (X : iface C A) addr b e p dl it :
  eqb X b e = false ->
  SetItem X addr (b, e, p, dl, it) = (b, e, p, dl, mkItem p (Some (addr b))).
Proof. intros H; unfold SetItem; rewrite H; reflexivity. Qed.

(** Without any bound on the size: the reverse traversal exists and its
    first item carries the start position [MaxPosition()]. *)
Lemma enum_bwd_exists {A} (d : A) (s : list A) (e : Iter (bwd (Enumerated_vector d))) :
  eqb (bwd (Enumerated_vector d)) e (EnumeratedIterator_make (vector_bwd d) (@vector_bwd_addr A)
       (0, s) (0, s) 0 kDecrement) = true ->
  forall b p it, exists items,
    yields_from (bwd (Enumerated_vector d)) e
      (SetItem (vector_bwd d) (@vector_bwd_addr A) ((b, s), (0, s), p, kDecrement, it)) items /\
    match items with [] => b = 0 | it' :: _ => position it' = p end.
Proof.
  intros He; induction b as [|b IH]; intros p it.
  - exists []; split; [|reflexivity].
    apply yields_stop; destruct e as [[[[[k l] e2] ?] ?] ?]; simpl in *.
    destruct k; [reflexivity|discriminate].
  - destruct (IH (int_add p kDecrement)
                 (mkItem p (Some (vector_bwd_addr (S b, s))))) as [items [Hi _]].
    eexists; split.
    + apply (yields_step (bwd (Enumerated_vector d))); [|exact Hi].
      destruct e as [[[[[k l] e2] ?] ?] ?]; simpl in *.
      destruct k; [reflexivity|discriminate].
    + reflexivity.
Qed.

Lemma store_write_spec {A} (d v : A) :
  forall (s : list A) k, k < length s ->
  exists s', store_write s k v = Some s' /\ length s' = length s /\
             nth k s' d = v /\ (forall j, j <> k -> nth j s' d = nth j s d).
Proof.
  induction s as [|x s IH]; intros [|k] Hk; simpl in Hk; try lia.
  - exists (v :: s); repeat split; intros [|j] Hj; simpl; congruence.
  - destruct (IH k ltac:(lia)) as [s' [W [L [N R]]]].
    exists (x :: s'); simpl; rewrite W; repeat split; simpl; auto.
    intros [|j] Hj; simpl; auto.
Qed.

(** (C7) A [std::vector] of [2^32] elements: [MaxPosition()] is
    [static_cast<int>(2^32) - 1 = 0 - 1 = -1], so the reverse traversal of
    [Enumerate] starts at position [-1], not at [size - 1]: the claim that
    reverse positions run from [size(c)-1] down to [0] for every collection
    does not hold. *)
Lemma Enumerate_reverse_positions_wrap :
  ~ (forall (s : list nat) items,
       yields (bwd (Enumerated_vector 0)) s items ->
       map position items = rev (map Z.of_nat (seq 0 (length s)))).
Proof.
  intros Claim.
  set (s := repeat 0 (2 ^ 32)).
  destruct (enum_bwd_exists 0 s (end_ (bwd (Enumerated_vector 0)) s) (Nat.eqb_refl 0)
              (length s) (int_add (int_of_size (length s)) (-1)) (mkItem 0 None))
    as [items [Y Hd]].
  assert (P : int_add (int_of_size (length s)) (-1) = (-1)%Z).
  { unfold s; rewrite repeat_length; unfold int_of_size; rewrite Nat2Z.inj_pow.
    vm_compute; reflexivity. }
  specialize (Claim s items Y).
  destruct items as [|it items].
  - apply (Nat.pow_nonzero 2 32); [discriminate|].
    unfold s in Hd; rewrite repeat_length in Hd; exact Hd.
  - assert (Hin : In (-1)%Z (rev (map Z.of_nat (seq 0 (length s))))).
    { rewrite <- Claim; simpl; left; rewrite Hd; exact P. }
    apply in_rev, in_map_iff in Hin as [k [Hk _]]; lia.
Qed.

(* ------------------------------------------------------------------ *)
(** *** Further properties of the cursors *)

Lemma yields_from_mapped {C A B} (X : iface C A) (f : A -> B) (e : Iter X) :
  forall i l, yields_from X e i l -> yields_from (MappedIterator X f) e i (map f l).
Proof.
  induction 1 as [i H|i l H _ IH].
  - apply (yields_stop (MappedIterator X f)); exact H.
  - apply (yields_step (MappedIterator X f)); assumption.
Qed.

(** [Map(c, f)] traverses [f] of each element of [c], in [c]'s order,
    forwards and backwards; [MapKeys] and [MapValues] traverse the keys and
    the values of the map's pairs in the map's own order. *)
Theorem Map_traversal {C A B} (X : bidi C A) (f : A -> B) (c : C) (l r : list A) :
  yields (fwd X) c l -> yields (bwd X) c r ->
  yields (fwd (Mapped X f)) c (map f l) /\ yields (bwd (Mapped X f)) c (map f r) /\
  (forall K V (Y : bidi C (K * V)) (kvs rkvs : list (K * V)),
     yields (fwd Y) c kvs -> yields (bwd Y) c rkvs ->
     yields (fwd (MapKeys Y)) c (map fst kvs) /\ yields (bwd (MapKeys Y)) c (map fst rkvs) /\
     yields (fwd (MapValues Y)) c (map snd kvs) /\ yields (bwd (MapValues Y)) c (map snd rkvs)).
Proof.
  intros Hl Hr; split; [|split].
  - apply (yields_from_mapped (fwd X) f); exact Hl.
  - apply (yields_from_mapped (bwd X) f); exact Hr.
  - intros K V Y kvs rkvs Hk Hrk; repeat split;
      apply yields_from_mapped; assumption.
Qed.

Lemma Map_traversal_witness :
  yields (vector_fwd (0, 0)) [(1, 10); (2, 20); (3, 30)] [(1, 10); (2, 20); (3, 30)] /\
  yields (vector_bwd (0, 0)) [(1, 10); (2, 20); (3, 30)] [(3, 30); (2, 20); (1, 10)] /\
  yields (fwd (Mapped (vector (0, 0)) fst)) [(1, 10); (2, 20); (3, 30)] [1; 2; 3] /\
  yields (bwd (MapValues (vector (0, 0)))) [(1, 10); (2, 20); (3, 30)] [30; 20; 10].
Proof.
  pose proof (vector_fwd_yields (0, 0) [(1, 10); (2, 20); (3, 30)]) as F.
  pose proof (vector_bwd_yields (0, 0) [(1, 10); (2, 20); (3, 30)]) as B; simpl rev in B.
  destruct (Map_traversal (vector (0, 0)) fst _ _ _ F B) as [M [_ K]].
  destruct (K nat nat (vector (0, 0)) _ _ F B) as [_ [_ [_ V]]].
  repeat split; assumption.
Defined.

(** The forward traversal of a [Filter] view over any source: the source's
    elements that satisfy the filter, in order, and nothing else. *)
Lemma filtered_yields_gen {C A} (X : iface C A) (p : A -> bool) :
  iface_refl X ->
  forall c l, yields X c l ->
  Filtered_yields X p c (filter p l) /\
  (forall l', Filtered_yields X p c l' -> l' = filter p l).
Proof.
  intros R c l H.
  destruct (SkipFilteredEntries_exists X p _ _ _ H) as [j Hj].
  assert (Hend : SkipFilteredEntries X p (end_ X c) (end_ X c) (end_ X c))
    by (apply skip_is_end; apply R).
  assert (Hloop := filter_loop_yields X p _ _ _ H j Hj).
  split.
  - exists (j, end_ X c), (end_ X c, end_ X c); repeat split.
    + exists j; split; [exact Hj|reflexivity].
    + exists (end_ X c); split; [exact Hend|reflexivity].
    + exact Hloop.
  - intros l' [sb [se [[j1 [Hj1 ->]] [[j2 [Hj2 ->]] Hl']]]].
    rewrite (SkipFilteredEntries_det X p _ _ _ Hj1 _ Hj) in Hl'.
    rewrite (SkipFilteredEntries_at_end X p _ R _ Hj2) in Hl'.
    exact (filter_loop_det X p _ _ _ Hl' _ Hloop).
Qed.

(** The reverse traversal of [Filter(v, p)] over a vector is the reverse
    of its forward traversal: the elements of [v] satisfying [p], last
    first. *)
Theorem Filtered_reverse_traversal {A} (d : A) (p : A -> bool) (s : list A) :
  Filtered_reverse_yields (vector d) p s (rev (filter p s)) /\
  (forall l', Filtered_reverse_yields (vector d) p s l' -> l' = rev (filter p s)).
Proof.
  unfold Filtered_reverse_yields; simpl bwd.
  rewrite <- filter_rev.
  apply filtered_yields_gen; [apply vector_bwd_refl|apply vector_bwd_yields].
Qed.

(** The traversal of a [Chain] view: the concatenation of the inner
    traversals, and nothing else. *)
Lemma chained_yields_gen {CO CI A} (O : iface CO CI) (N : iface CI A) (inner_init : Iter N) :
  iface_refl O ->
  forall co cs ls, yields O co cs -> Forall2 (yields N) cs ls ->
  Chained_yields O N inner_init co (concat ls) /\
  (forall l', Chained_yields O N inner_init co l' -> l' = concat ls).
Proof.
  intros R co cs ls Hcs HF.
  set (se := (end_ O co, end_ O co, inner_init, inner_init) : chain_state O N).
  assert (Hse : IsAtEnd O N se = true) by apply R.
  assert (Hend : Chained_end O N inner_init co se).
  { unfold Chained_end, ChainedIterator_make; simpl; rewrite R; simpl.
    apply skip_inner_done; simpl; rewrite R; reflexivity. }
  destruct (chain_outer_walk O N se Hse (end_ O co) (begin_ O co) cs Hcs ls HF
              inner_init inner_init) as [sb [Hsb Hl]].
  split.
  - exists sb, se; repeat split; assumption.
  - intros l' [sb' [se' [Hsb' [Hse' Hl']]]].
    unfold Chained_begin, ChainedIterator_make in Hsb'.
    unfold Chained_end, ChainedIterator_make in Hse', Hend.
    rewrite (SkipEmptyInnerCollections_det O N _ _ Hsb' _ Hsb) in Hl'.
    rewrite (SkipEmptyInnerCollections_det O N _ _ Hse' _ Hend) in Hl'.
    exact (chain_loop_det O N _ _ _ Hl' _ Hl).
Qed.

Lemma Forall2_vector_bwd {A} (d : A) :
  forall vv : list (list A), Forall2 (yields (vector_bwd d)) vv (map (@rev A) vv).
Proof. induction vv; constructor; [apply vector_bwd_yields|assumption]. Qed.

Lemma Forall2_vector_fwd {A} (d : A) :
  forall vv : list (list A), Forall2 (yields (vector_fwd d)) vv vv.
Proof. induction vv; constructor; [apply vector_fwd_yields|assumption]. Qed.

Lemma concat_map_rev_rev {A} :
  forall vv : list (list A), concat (map (@rev A) (rev vv)) = rev (concat vv).
Proof.
  induction vv as [|v vv IH]; [reflexivity|].
  cbn [rev concat]; rewrite map_app, concat_app, IH, rev_app_distr.
  cbn [map concat]; rewrite app_nil_r; reflexivity.
Qed.

(** The reverse traversal of [Chain(vv)] over a vector of vectors is the
    reverse of the flattened sequence: the inner vectors from last to
    first, each read backwards, empty ones skipped. *)
Theorem Chained_reverse_traversal {A} (d : A) (inner_init : nat * list A) (vv : list (list A)) :
  Chained_reverse_yields (vector []) (vector d) inner_init vv (rev (concat vv)) /\
  (forall l', Chained_reverse_yields (vector []) (vector d) inner_init vv l' ->
     l' = rev (concat vv)).
Proof.
  unfold Chained_reverse_yields; simpl bwd.
  rewrite <- concat_map_rev_rev.
  apply (chained_yields_gen (vector_bwd []) (vector_bwd d) inner_init (vector_bwd_refl [])
           vv (rev vv)).
  - apply vector_bwd_yields.
  - apply Forall2_vector_bwd.
Qed.

(** [Chain(vv).begin() == Chain(vv).end()] holds exactly when there is
    nothing to traverse: every inner vector is empty (or there is none). *)
Theorem Chained_begin_eq_end {A} (d : A) (inner_init : nat * list A) (vv : list (list A)) sb se :
  Chained_begin (vector_fwd []) (vector_fwd d) inner_init vv sb ->
  Chained_end (vector_fwd []) (vector_fwd d) inner_init vv se ->
  (ChainedIterator_eqb (vector_fwd []) (vector_fwd d) sb se = true <-> concat vv = []).
Proof.
  intros Hb He.
  destruct (chained_yields_gen (vector_fwd []) (vector_fwd d) inner_init (vector_fwd_refl [])
              vv vv vv (vector_fwd_yields [] vv) (Forall2_vector_fwd d vv)) as [[sb' [se' [Hb' [He' Hl]]]] _].
  unfold Chained_begin, Chained_end, ChainedIterator_make in *.
  rewrite (SkipEmptyInnerCollections_det _ _ _ _ Hb' _ Hb) in Hl.
  rewrite (SkipEmptyInnerCollections_det _ _ _ _ He' _ He) in Hl.
  split.
  - intros E; inversion Hl as [? H0|? ? ? H0]; [reflexivity|congruence].
  - intros E; rewrite E in Hl; inversion Hl; assumption.
Qed.

Lemma Chained_begin_eq_end_witness :
  Chained_begin (vector_fwd []) (vector_fwd 0) (0, []) [[]; []]
    ((2, [[]; []]), (2, [[]; []]), (0, []), (0, [])) /\
  Chained_end (vector_fwd []) (vector_fwd 0) (0, []) [[]; []]
    ((2, [[]; []]), (2, [[]; []]), (0, []), (0, [])) /\
  ChainedIterator_eqb (vector_fwd []) (vector_fwd 0)
    ((2, [[]; []]), (2, [[]; []]), (0, []), (0, []))
    ((2, [[]; []]), (2, [[]; []]), (0, []), (0, [])) = true.
Proof.
  assert (Hb : Chained_begin (vector_fwd []) (vector_fwd 0) (0, []) [[]; []]
                 ((2, [[]; []]), (2, [[]; []]), (0, []), (0, [])))
    by (repeat (first [apply skip_inner_done; reflexivity | apply skip_inner_advance; [reflexivity|]])).
  assert (He : Chained_end (vector_fwd []) (vector_fwd 0) (0, []) [[]; []]
                 ((2, [[]; []]), (2, [[]; []]), (0, []), (0, [])))
    by (apply skip_inner_done; reflexivity).
  split; [exact Hb|split; [exact He|]].
  apply (proj2 (Chained_begin_eq_end 0 (0, []) [[]; []] _ _ Hb He)); reflexivity.
Defined.

(** *** [EnumeratedIterator] over any source *)

Lemma SetItem_stop {C A} (X : iface C A) addr b e p dl it :
  eqb X b e = true -> SetItem X addr (b, e, p, dl, it) = (b, e, p, dl, it).
Proof. intros H; unfold SetItem; rewrite H; reflexivity. Qed.

Lemma SetItem_shape {C A} (X : iface C A) addr b e p dl it :
  exists it', SetItem X addr (b, e, p, dl, it) = (b, e, p, dl, it').
Proof. unfold SetItem; destruct (negb (eqb X b e)); eexists; reflexivity. Qed.

Lemma enum_yields_gen {C A} (X : iface C A) (addr : Iter X -> nat) (start : C -> Z) (dl : Z)
    (e : Iter X) (e2 : Iter X) (q dl2 : Z) (it2 : Item) :
  forall i l, yields_from X e i l ->
  forall p it, (forall j, j <= length l -> (- 2 ^ 31 <= p + Z.of_nat j * dl <= INT_MAX)%Z) ->
  yields_from (EnumeratedIterator X addr start dl) (e, e2, q, dl2, it2)
    (SetItem X addr (i, e, p, dl, it)) (enum_expected X addr p dl i (length l)).
Proof.
  induction 1 as [i H|i l H _ IH]; intros p it Hb.
  - rewrite SetItem_stop by exact H.
    apply yields_stop; exact H.
  - rewrite SetItem_step by exact H.
    cbn [length enum_expected].
    apply (yields_step (EnumeratedIterator X addr start dl) _
             (i, e, p, dl, mkItem p (Some (addr i)))); [exact H|].
    cbn -[SetItem int_add].
    assert (B1 := Hb 1 ltac:(simpl; lia)).
    unfold int_add; rewrite int_wrap_small by lia.
    apply IH.
    intros j Hj.
    assert (Bj := Hb (S j) ltac:(simpl; lia)).
    rewrite Nat2Z.inj_succ in Bj.
    replace (p + dl + Z.of_nat j * dl)%Z with (p + Z.succ (Z.of_nat j) * dl)%Z by ring.
    exact Bj.
Qed.

Lemma enum_expected_positions {C A} (X : iface C A) addr dl :
  forall n p i, map position (enum_expected X addr p dl i n) =
                map (fun j => (p + Z.of_nat j * dl)%Z) (seq 0 n).
Proof.
  induction n as [|n IH]; intros p i; [reflexivity|].
  cbn [enum_expected map seq]; rewrite IH, <- seq_shift, map_map.
  simpl position; f_equal; [ring|].
  apply map_ext; intros j; rewrite Nat2Z.inj_succ; ring.
Qed.

Lemma enum_expected_values {C A} (X : iface C A) addr dl :
  forall n p i, map value (enum_expected X addr p dl i n) =
                map (fun j => Some (addr (Nat.iter j (incr X) i))) (seq 0 n).
Proof.
  induction n as [|n IH]; intros p i; [reflexivity|].
  cbn [enum_expected map seq]; rewrite IH, <- seq_shift, map_map.
  simpl value; f_equal.
  apply map_ext; intros j; rewrite Nat.iter_succ_r; reflexivity.
Qed.

Lemma positions_down (n : nat) :
  map (fun j => (Z.of_nat n - 1 + Z.of_nat j * kDecrement)%Z) (seq 0 n) =
  rev (map Z.of_nat (seq 0 n)).
Proof.
  induction n as [|n IH]; [reflexivity|].
  transitivity (Z.of_nat n :: rev (map Z.of_nat (seq 0 n))).
  - cbn [seq map]; unfold kDecrement in *; f_equal; [lia|].
    rewrite <- IH, <- seq_shift, map_map.
    apply map_ext; intros j; lia.
  - rewrite seq_S, map_app, rev_app_distr; reflexivity.
Qed.

(** [Enumerate(c)] over any source collection (a list, a set, a
    forward_list, ...) whose traversal has at most [INT_MAX] elements:
    the forward traversal yields one item per element with positions
    [0, 1, ..., n-1], item [j] pointing at the element the source's
    iterator designates after [j] increments; the reverse traversal
    (when [size()] is the number of elements) yields positions
    [n-1, ..., 1, 0] with item [j] pointing at the element the source's
    reverse iterator designates after [j] increments. *)
Theorem Enumerated_positions {C A} (X : bidi C A) addr_f addr_b (size : C -> nat) (c : C) :
  (forall l, yields (fwd X) c l -> (Z.of_nat (length l) <= INT_MAX)%Z ->
   exists items, yields (fwd (Enumerated X addr_f addr_b size)) c items /\
     map position items = map Z.of_nat (seq 0 (length l)) /\
     map value items =
       map (fun j => Some (addr_f (Nat.iter j (incr (fwd X)) (begin_ (fwd X) c)))) (seq 0 (length l))) /\
  (forall r, yields (bwd X) c r -> size c = length r -> (Z.of_nat (length r) <= INT_MAX)%Z ->
   exists items, yields (bwd (Enumerated X addr_f addr_b size)) c items /\
     map position items = rev (map Z.of_nat (seq 0 (length r))) /\
     map value items =
       map (fun j => Some (addr_b (Nat.iter j (incr (bwd X)) (begin_ (bwd X) c)))) (seq 0 (length r))).
Proof.
  split.
  - intros l Hl Hn.
    exists (enum_expected (fwd X) addr_f 0 kIncrement (begin_ (fwd X) c) (length l)).
    split; [|split].
    + unfold yields; cbn [Enumerated fwd begin_ end_ EnumeratedIterator].
      unfold EnumeratedIterator_make.
      destruct (SetItem_shape (fwd X) addr_f (end_ (fwd X) c) (end_ (fwd X) c) 0 kIncrement
                  (mkItem 0 None)) as [it' ->].
      apply enum_yields_gen; [exact Hl|].
      intros j Hj; unfold kIncrement; lia.
    + rewrite enum_expected_positions; apply map_ext; intros j; unfold kIncrement; lia.
    + apply enum_expected_values.
  - intros r Hr Hs Hn.
    exists (enum_expected (bwd X) addr_b (Z.of_nat (length r) - 1) kDecrement
              (begin_ (bwd X) c) (length r)).
    split; [|split].
    + unfold yields; cbn [Enumerated bwd begin_ end_ EnumeratedIterator].
      unfold EnumeratedIterator_make.
      rewrite Hs; unfold int_of_size; rewrite (int_wrap_small (Z.of_nat (length r))) by lia.
      unfold int_add; rewrite int_wrap_small by lia.
      replace (Z.of_nat (length r) + -1)%Z with (Z.of_nat (length r) - 1)%Z by lia.
      destruct (SetItem_shape (bwd X) addr_b (end_ (bwd X) c) (end_ (bwd X) c)
                  (Z.of_nat (length r) - 1) kDecrement (mkItem 0 None)) as [it' ->].
      apply enum_yields_gen; [exact Hr|].
      intros j Hj; unfold kDecrement; lia.
    + rewrite enum_expected_positions; apply positions_down.
    + apply enum_expected_values.
Qed.

Lemma Enumerated_positions_witness :
  exists items,
    yields (bwd (Enumerated (vector 0) (@vector_fwd_addr nat) (@vector_bwd_addr nat) (@length nat)))
      [7; 8; 9] items /\
    map position items = [2%Z; 1%Z; 0%Z] /\ map value items = [Some 2; Some 1; Some 0].
Proof.
  destruct (proj2 (Enumerated_positions (vector 0) (@vector_fwd_addr nat) (@vector_bwd_addr nat)
                     (@length nat) [7; 8; 9]) [9; 8; 7] (vector_bwd_yields 0 [7; 8; 9])
                     eq_refl ltac:(vm_compute; discriminate)) as [items [Y [P V]]].
  exists items; split; [exact Y|split; [exact P|exact V]].
Defined.


(** *** [Enumerate] over any collection: positions and write-through *)

Lemma enum_expected_In {C A} (X : iface C A) (addr : Iter X -> nat) (dl : Z) :
  forall n p i it, In it (enum_expected X addr p dl i n) ->
  exists j, j < n /\ it = mkItem (p + Z.of_nat j * dl) (Some (addr (Nat.iter j (incr X) i))).
Proof.
  induction n as [|n IH]; intros p i it Hin; [destruct Hin|].
  destruct Hin as [<-|Hin].
  - exists 0; split; [lia|]; f_equal; lia.
  - destruct (IH _ _ _ Hin) as [j [Hj ->]].
    exists (S j); split; [lia|].
    rewrite Nat.iter_succ_r, Nat2Z.inj_succ; f_equal; ring.
Qed.

Lemma enum_fwd_gen {C A} (X : iface C A) (addr : Iter X -> nat) (c : C) (l : list A) :
  yields X c l -> (Z.of_nat (length l) <= INT_MAX)%Z ->
  yields (ForwardEnumerated X addr) c (enum_expected X addr 0 kIncrement (begin_ X c) (length l)).
Proof.
  intros Hl Hn.
  unfold yields; cbn [ForwardEnumerated begin_ end_ EnumeratedIterator].
  unfold EnumeratedIterator_make.
  destruct (SetItem_shape X addr (end_ X c) (end_ X c) 0 kIncrement (mkItem 0 None)) as [it' ->].
  apply enum_yields_gen; [exact Hl|].
  intros j Hj; unfold kIncrement; lia.
Qed.

Lemma enum_bwd_gen {C A} (X : bidi C A) addr_f addr_b (size : C -> nat) (c : C) (r : list A) :
  yields (bwd X) c r -> size c = length r -> (Z.of_nat (length r) <= INT_MAX)%Z ->
  yields (bwd (Enumerated X addr_f addr_b size)) c
    (enum_expected (bwd X) addr_b (Z.of_nat (length r) - 1) kDecrement (begin_ (bwd X) c) (length r)).
Proof.
  intros Hr Hs Hn.
  unfold yields; cbn [Enumerated bwd begin_ end_ EnumeratedIterator].
  unfold EnumeratedIterator_make.
  rewrite Hs; unfold int_of_size; rewrite (int_wrap_small (Z.of_nat (length r))) by lia.
  unfold int_add; rewrite int_wrap_small by lia.
  replace (Z.of_nat (length r) + -1)%Z with (Z.of_nat (length r) - 1)%Z by lia.
  destruct (SetItem_shape (bwd X) addr_b (end_ (bwd X) c) (end_ (bwd X) c)
              (Z.of_nat (length r) - 1) kDecrement (mkItem 0 None)) as [it' ->].
  apply enum_yields_gen; [exact Hr|].
  intros j Hj; unfold kDecrement; lia.
Qed.

(** Writing [v] through an item pointing at the [k]-th element of [c]. *)
Lemma item_write {C A} (X : iface C A) (addr : Iter X -> nat) (storage : C -> list A)
    (d : A) (c : C) (n k : nat) (it : Item) :
  stored_in X addr storage d c n -> k < n -> value it = Some (addr (nth_iter X c k)) ->
  forall v, exists s', assign_value it v (storage c) = Some s' /\
    nth (addr (nth_iter X c k)) s' d = v /\
    (forall k', k' < n -> addr (nth_iter X c k') <> addr (nth_iter X c k) ->
       nth (addr (nth_iter X c k')) s' d = deref X (nth_iter X c k')).
Proof.
  intros Hs Hk Hv v.
  destruct (Hs k Hk) as [Hlt _].
  destruct (store_write_spec d v (storage c) _ Hlt) as [s' [W [_ [N R]]]].
  exists s'; unfold assign_value; rewrite Hv; split; [exact W|split; [exact N|]].
  intros k' Hk' Hne; rewrite (R _ Hne); symmetry; apply (proj2 (Hs k' Hk')).
Qed.

(** (C7, amended) [Enumerate(c)] over any collection [c] (forward-only
    or bidirectional, a vector, a list, a set, ...) whose [n] elements fit
    in an [int] ([n <= INT_MAX]), with its elements held in a storage
    where the [k]-th element in forward order is the cell [&*it] of the
    iterator [it] reached after [k] increments.  The forward traversal
    yields the positions [0, 1, ..., n-1]; the reverse traversal, when [c]
    is bidirectional (its reverse range is the forward one reversed, and
    [size()] is [n]), yields [n-1, ..., 1, 0].  In both, the item at
    position [k] has [Value()] pointing at the [k]-th element of [c] in
    forward order, and writing a value through it sets that element of
    [c] and leaves every other element as it was. *)
Theorem Enumerate_traversal :
  (forall C A (X : iface C A) (addr : Iter X -> nat) (storage : C -> list A) (d : A)
          (c : C) (l : list A),
     yields X c l -> (Z.of_nat (length l) <= INT_MAX)%Z ->
     stored_in X addr storage d c (length l) ->
     exists items, yields (ForwardEnumerated X addr) c items /\
       map position items = map Z.of_nat (seq 0 (length l)) /\
       (forall it, In it items -> exists k, k < length l /\
          position it = Z.of_nat k /\ value it = Some (addr (nth_iter X c k)) /\
          forall v, exists s', assign_value it v (storage c) = Some s' /\
            nth (addr (nth_iter X c k)) s' d = v /\
            (forall k', k' < length l -> addr (nth_iter X c k') <> addr (nth_iter X c k) ->
               nth (addr (nth_iter X c k')) s' d = deref X (nth_iter X c k')))) /\
  (forall C A (X : bidi C A) (addr_f : Iter (fwd X) -> nat) (addr_b : Iter (bwd X) -> nat)
          (size : C -> nat) (storage : C -> list A) (d : A) (c : C) (l : list A),
     yields (fwd X) c l -> yields (bwd X) c (rev l) -> size c = length l ->
     (Z.of_nat (length l) <= INT_MAX)%Z ->
     stored_in (fwd X) addr_f storage d c (length l) ->
     (forall j, j < length l ->
        addr_b (nth_iter (bwd X) c j) = addr_f (nth_iter (fwd X) c (length l - 1 - j))) ->
     fwd (Enumerated X addr_f addr_b size) = ForwardEnumerated (fwd X) addr_f /\
     exists items, yields (bwd (Enumerated X addr_f addr_b size)) c items /\
       map position items = rev (map Z.of_nat (seq 0 (length l))) /\
       (forall it, In it items -> exists k, k < length l /\
          position it = Z.of_nat k /\ value it = Some (addr_f (nth_iter (fwd X) c k)) /\
          forall v, exists s', assign_value it v (storage c) = Some s' /\
            nth (addr_f (nth_iter (fwd X) c k)) s' d = v /\
            (forall k', k' < length l ->
               addr_f (nth_iter (fwd X) c k') <> addr_f (nth_iter (fwd X) c k) ->
               nth (addr_f (nth_iter (fwd X) c k')) s' d = deref (fwd X) (nth_iter (fwd X) c k')))).
Proof.
  split.
  - intros C A X addr storage d c l Hl Hn Hs.
    exists (enum_expected X addr 0 kIncrement (begin_ X c) (length l)).
    split; [apply enum_fwd_gen; assumption|split].
    + rewrite enum_expected_positions; apply map_ext; intros j; unfold kIncrement; lia.
    + intros it Hin.
      destruct (enum_expected_In X addr _ _ _ _ _ Hin) as [k [Hk ->]].
      exists k; split; [exact Hk|]; cbn [position value].
      split; [unfold kIncrement; lia|split; [reflexivity|]].
      apply (item_write X addr storage d c (length l) k); [exact Hs|exact Hk|reflexivity].
  - intros C A X addr_f addr_b size storage d c l Hl Hr Hsz Hn Hs Ha.
    split; [reflexivity|].
    rewrite <- (length_rev l) in Hsz, Hn.
    exists (enum_expected (bwd X) addr_b (Z.of_nat (length (rev l)) - 1) kDecrement
              (begin_ (bwd X) c) (length (rev l))).
    split; [apply enum_bwd_gen; assumption|].
    rewrite length_rev; split.
    + rewrite enum_expected_positions; apply positions_down.
    + intros it Hin.
      destruct (enum_expected_In (bwd X) addr_b _ _ _ _ _ Hin) as [j [Hj ->]].
      exists (length l - 1 - j); split; [lia|]; cbn [position value].
      split; [unfold kDecrement; lia|].
      assert (Hv : addr_b (Nat.iter j (incr (bwd X)) (begin_ (bwd X) c)) =
                   addr_f (nth_iter (fwd X) c (length l - 1 - j))) by exact (Ha j Hj).
      rewrite Hv; split; [reflexivity|].
      apply (item_write (fwd X) addr_f storage d c (length l)); [exact Hs|lia|reflexivity].
Qed.

Lemma Enumerate_traversal_witness :
  exists items,
    yields (bwd (Enumerated_vector 0)) [10; 20; 30] items /\
    map position items = [2%Z; 1%Z; 0%Z] /\
    exists it, In it items /\ position it = 1%Z /\
      assign_value it 99 [10; 20; 30] = Some [10; 99; 30].
Proof.
  assert (Hs : stored_in (vector_fwd 0) (@vector_fwd_addr nat) (fun s => s) 0 [10; 20; 30] 3).
  { intros k Hk; do 3 (destruct k as [|k]; [split; [simpl; lia|reflexivity]|]); lia. }
  assert (Ha : forall j, j < length [10; 20; 30] ->
            @vector_bwd_addr nat (nth_iter (vector_bwd 0) [10; 20; 30] j) =
            @vector_fwd_addr nat (nth_iter (vector_fwd 0) [10; 20; 30] (length [10; 20; 30] - 1 - j))).
  { intros j Hj; do 3 (destruct j as [|j]; [reflexivity|]); simpl in Hj; lia. }
  destruct (proj2 Enumerate_traversal (list nat) nat (vector 0) (@vector_fwd_addr nat)
              (@vector_bwd_addr nat) (@length nat) (fun s => s) 0 [10; 20; 30] [10; 20; 30]
              (vector_fwd_yields 0 [10; 20; 30]) (vector_bwd_yields 0 [10; 20; 30]) eq_refl
              ltac:(vm_compute; discriminate) Hs Ha) as [_ [items [Y [P W]]]].
  exists items; split; [exact Y|split; [exact P|]].
  assert (Hin : In (nth 1 items (mkItem 0 None)) items).
  { apply nth_In; apply (f_equal (@length Z)) in P; rewrite length_map in P; rewrite P; simpl; lia. }
  exists (nth 1 items (mkItem 0 None)); split; [exact Hin|].
  destruct (W _ Hin) as [k [Hk [Hp [Hv _]]]].
  assert (Pk : position (nth 1 items (mkItem 0 None)) = 1%Z).
  { rewrite <- (map_nth position items (mkItem 0 None) 1), P; reflexivity. }
  split; [exact Pk|].
  rewrite Pk in Hp; assert (k = 1) by lia; subst k.
  unfold assign_value; rewrite Hv; reflexivity.
Defined.

End CursorFacts.
